(** * Expression trees of [expr.hpp]: nodes on a heap, evaluation, printing,
      cloning, copy/move operations and destruction.

    The C++ classes [const_expr], [bin_op_expr] and [if_expr] hold their
    children through pointers ([std::unique_ptr] for the binary operator, raw
    owning pointers for the conditional).  Several of the properties below are
    about aliasing, null pointers and double deletion, so the nodes live in an
    explicit store and every operation passes the store along. *)

From Stdlib Require Import ZArith Lia Ascii.
From stdpp Require Import gmap strings pretty list fin_maps.

(** ** Result types of expressions

    [expr<T>] is a template; the driver instantiates it at [int], [bool] and
    [std::string]. *)

Inductive ty := TInt | TBool | TString.

Definition tyD (T : ty) : Type :=
  match T with
  | TInt => Z
  | TBool => bool
  | TString => string
  end.

Definition ty_eq_dec (T U : ty) : {T = U} + {T ≠ U}.
Proof. decide equality. Defined.

#[global] Instance ty_eq_decision : EqDecision ty := ty_eq_dec.

(** A value together with its C++ type: what [eval] of some [expr<T>] returns
    when the static type is not tracked by the pointer. *)
Inductive value := Dyn (T : ty) (v : tyD T).

(** Reading a value at the type a caller expects.  C++ guarantees the match
    statically; the model checks it where a value is handed to a function. *)
Definition as_ty (A : ty) (x : value) : option (tyD A) :=
  match x with
  | Dyn T v =>
      match ty_eq_dec T A with
      | left e => Some (eq_rect T tyD v A e)
      | right _ => None
      end
  end.

(** ** The store *)

Definition loc := positive.

(** A pointer; [None] is [nullptr]. *)
Definition ptr := option loc.

(** The three node classes, with their data members in declaration order. *)
Inductive node :=
| const_expr (T : ty) (val : tyD T)
| bin_op_expr (T A B : ty) (fn : tyD A → tyD B → tyD T) (name : string)
    (left_arg right_arg : ptr)
| if_expr (T : ty) (cond true_branch false_branch : ptr).

Abbreviation heap := (gmap loc node).

(** ** Outcomes

    Dereferencing [nullptr], touching a deleted object and deleting an object
    twice are undefined behaviour in C++; the model reports them as faults.
    [OutOfFuel] is not a C++ behaviour: it is the model's recursion bound. *)

Inductive fault := NullDeref | UseAfterFree | DoubleFree | IllTyped | OutOfFuel.

Inductive outcome (X : Type) :=
| Ok (x : X)
| Fault (f : fault).
Arguments Ok {X} x.
Arguments Fault {X} f.

(** Sequencing: a fault ends the computation.  With this instance stdpp's
    [x ← m; k] notation is available for [outcome]. *)
#[global] Instance outcome_bind : MBind outcome := λ X Y k m,
  match m with
  | Ok x => k x
  | Fault f => Fault f
  end.

(** [*p] for a pointer to a node: the object, or the fault of reaching for it. *)
Definition deref (h : heap) (p : ptr) : outcome node :=
  match p with
  | None => Fault NullDeref
  | Some l =>
      match h !! l with
      | Some n => Ok n
      | None => Fault UseAfterFree
      end
  end.

(** [new X(...)]: the object is put at an address not in use. *)
Definition alloc (h : heap) (n : node) : heap * loc :=
  let l := fresh (dom h) in (<[l := n]> h, l).
Arguments alloc : simpl never.

(** A pointer used as a condition ([if(cond)]): true unless it is null. *)
Definition ptr_to_bool (p : ptr) : bool :=
  match p with
  | Some _ => true
  | None => false
  end.

(** ** [eval] *)

(** [fn(a, b)] once both operand values are at hand. *)
Definition apply_fn {T A B : ty} (fn : tyD A → tyD B → tyD T) (x y : value)
  : outcome value :=
  match as_ty A x, as_ty B y with
  | Some a, Some b => Ok (Dyn T (fn a b))
  | _, _ => Fault IllTyped
  end.

(** Virtual [eval()] through a pointer.  In [bin_op_expr::eval] the two
    operand calls are arguments of one call; this function takes them left to
    right (see [eval_rel] for the order). *)
Fixpoint eval (fuel : nat) (h : heap) (p : ptr) : outcome value :=
  match fuel with
  | O => Fault OutOfFuel
  | S fuel' =>
      n ← deref h p;
      match n with
      | const_expr T val => Ok (Dyn T val)
      | bin_op_expr T A B fn name left_arg right_arg =>
          x ← eval fuel' h left_arg;
          y ← eval fuel' h right_arg;
          apply_fn fn x y
      | if_expr T cond true_branch false_branch =>
          if ptr_to_bool cond then eval fuel' h true_branch
          else eval fuel' h false_branch
      end
  end.

(** ** [print] *)

(** [out << val] with the stream's default flags: decimal for [int], [1]/[0]
    for [bool] (no [boolalpha]), the characters of a [std::string]. *)
Definition show (T : ty) : tyD T → string :=
  match T with
  | TInt => fun z => pretty z
  | TBool => fun b => if b then "1" else "0"
  | TString => fun s => s
  end.

(** Virtual [print(out)]; the stream is the text written so far. *)
Fixpoint print (fuel : nat) (h : heap) (p : ptr) (out : string) : outcome string :=
  match fuel with
  | O => Fault OutOfFuel
  | S fuel' =>
      n ← deref h p;
      match n with
      | const_expr T val => Ok (out +:+ show T val)
      | bin_op_expr T A B fn name left_arg right_arg =>
          out ← print fuel' h left_arg (out +:+ "(");
          out ← print fuel' h right_arg (out +:+ " " +:+ name +:+ " ");
          Ok (out +:+ ")")
      | if_expr T cond true_branch false_branch =>
          if ptr_to_bool cond then Ok (out +:+ "true")
          else Ok (out +:+ "false")
      end
  end.

(** ** Destruction *)

(** Giving the storage of an object back. *)
Definition free (h : heap) (l : loc) : outcome heap :=
  match h !! l with
  | Some _ => Ok (delete l h)
  | None => Fault DoubleFree
  end.

(** [delete p]: nothing for [nullptr]; otherwise the virtual destructor, then
    the storage is released.  [~if_expr] deletes [cond], [true_branch],
    [false_branch] in that order; the implicit [~bin_op_expr] destroys its
    [unique_ptr] members in reverse declaration order, each deleting what it
    holds; [const_expr] owns nothing. *)
Fixpoint delete_expr (fuel : nat) (h : heap) (p : ptr) : outcome heap :=
  match fuel with
  | O => Fault OutOfFuel
  | S fuel' =>
      match p with
      | None => Ok h
      | Some l =>
          match h !! l with
          | None => Fault DoubleFree
          | Some (const_expr T val) => free h l
          | Some (bin_op_expr T A B fn name left_arg right_arg) =>
              h ← delete_expr fuel' h right_arg;
              h ← delete_expr fuel' h left_arg;
              free h l
          | Some (if_expr T cond true_branch false_branch) =>
              h ← delete_expr fuel' h cond;
              h ← delete_expr fuel' h true_branch;
              h ← delete_expr fuel' h false_branch;
              free h l
          end
      end
  end.

(** ** The conditional's copy and move operations *)

(** The data members of the [if_expr] at [l]. *)
Definition load_if (h : heap) (l : loc) : outcome (ty * ptr * ptr * ptr) :=
  n ← deref h (Some l);
  match n with
  | if_expr T cond true_branch false_branch =>
      Ok (T, cond, true_branch, false_branch)
  | _ => Fault IllTyped
  end.

(** Writing the data members of the object at [l], which has to be alive. *)
Definition store (h : heap) (l : loc) (n : node) : outcome heap :=
  match h !! l with
  | Some _ => Ok (<[l := n]> h)
  | None => Fault UseAfterFree
  end.

(** [if_expr(c, t, f)] *)
Definition if_expr_ctor (h : heap) (T : ty) (c t f : ptr) : heap * loc :=
  alloc h (if_expr T c t f).

(** [if_expr(const if_expr& o)]: the three pointers of [o] are copied. *)
Definition if_expr_copy_ctor (h : heap) (o : loc) : outcome (heap * loc) :=
  '(T, o_cond, o_true, o_false) ← load_if h o;
  Ok (alloc h (if_expr T o_cond o_true o_false)).

(** [if_expr(if_expr&& o)]: [std::move] of a raw pointer is a cast, so
    [cond(std::move(o.cond))] copies the pointer and leaves [o.cond] as it
    was; the body nulls the two branches of [o]. *)
Definition if_expr_move_ctor (h : heap) (o : loc) : outcome (heap * loc) :=
  '(T, o_cond, o_true, o_false) ← load_if h o;
  let '(h, this) := alloc h (if_expr T o_cond o_true o_false) in
  h ← store h o (if_expr T o_cond None None);
  Ok (h, this).

(** [operator=(if_expr&& o)]: the old branches are deleted, the old [cond]
    is not. *)
Definition if_expr_move_assign (fuel : nat) (h : heap) (this o : loc)
  : outcome heap :=
  if decide (o = this) then Ok h else
  '(T, cond, true_branch, false_branch) ← load_if h this;
  h ← delete_expr fuel h true_branch;
  h ← delete_expr fuel h false_branch;
  '(U, o_cond, o_true, o_false) ← load_if h o;
  h ← store h this (if_expr T o_cond o_true o_false);
  store h o (if_expr U o_cond None None).

(** ** The conditional's assignment operators, statement by statement

    [operator=(const if_expr& o)] takes its argument by reference to [const]
    and its body assigns to data members of [o], which are not [mutable].
    C++ rejects such an assignment when the operator is instantiated, so
    whether the operator exists at all is decided by its text.  The
    statements the two assignment operators are made of get a syntax here,
    the rule for [const] is a check on that syntax, and an interpreter gives
    the statements their effect on the store. *)

(** The two objects a statement of [operator=] names: [*this] and [o]. *)
Inductive object := this_object | argument_o.

(** The data members of [if_expr]. *)
Inductive member := member_cond | member_true_branch | member_false_branch.

(** Right-hand sides: [nullptr], or a member of one of the two objects
    ([std::move] of a raw pointer is that pointer). *)
Inductive rvalue :=
| rv_nullptr
| rv_member (ob : object) (m : member).

(** [stmt_return_if_same] is the test for self-assignment with its early
    return, [stmt_delete m] is [delete m;] on a member of [*this], and
    [stmt_assign ob m e] is [ob.m = e;]. *)
Inductive stmt :=
| stmt_return_if_same
| stmt_delete (m : member)
| stmt_assign (ob : object) (m : member) (e : rvalue).

(** An assignment operator: whether its parameter is a reference to [const],
    and its body up to the final [return]. *)
Record assignment_operator := AssignmentOperator {
  op_argument_const : bool;
  op_body : list stmt
}.

(** [operator=(const if_expr& o)], lines 156 to 168. *)
Definition copy_assign_operator : assignment_operator :=
  {| op_argument_const := true;
     op_body :=
       [ stmt_return_if_same;
         stmt_delete member_cond;
         stmt_delete member_true_branch;
         stmt_delete member_false_branch;
         stmt_assign this_object member_cond (rv_member argument_o member_cond);
         stmt_assign this_object member_true_branch
           (rv_member argument_o member_true_branch);
         stmt_assign this_object member_false_branch
           (rv_member argument_o member_false_branch);
         stmt_assign argument_o member_cond rv_nullptr;
         stmt_assign argument_o member_true_branch rv_nullptr;
         stmt_assign argument_o member_false_branch rv_nullptr ] |}.

(** [operator=(if_expr&& o)], lines 177 to 189.  The chained assignment
    [o.true_branch = o.false_branch = nullptr] assigns [o.false_branch]
    first and then its value to [o.true_branch]. *)
Definition move_assign_operator : assignment_operator :=
  {| op_argument_const := false;
     op_body :=
       [ stmt_return_if_same;
         stmt_delete member_true_branch;
         stmt_delete member_false_branch;
         stmt_assign this_object member_cond (rv_member argument_o member_cond);
         stmt_assign this_object member_true_branch
           (rv_member argument_o member_true_branch);
         stmt_assign this_object member_false_branch
           (rv_member argument_o member_false_branch);
         stmt_assign argument_o member_false_branch rv_nullptr;
         stmt_assign argument_o member_true_branch
           (rv_member argument_o member_false_branch) ] |}.

(** The rule for [const]: a statement that assigns to a member of [o] is
    ill-formed when [o] is a reference to [const].  ([*this] is not [const]
    in an assignment operator.) *)
Definition assigns_to_const (is_const : bool) (s : stmt) : bool :=
  match s with
  | stmt_assign argument_o _ _ => is_const
  | _ => false
  end.

Definition well_formed (op : assignment_operator) : bool :=
  forallb (λ s, negb (assigns_to_const (op_argument_const op) s)) (op_body op).

Definition address_of (this o : loc) (ob : object) : loc :=
  match ob with
  | this_object => this
  | argument_o => o
  end.

(** Reading and writing one data member of the conditional at [l]. *)
Definition read_member (h : heap) (l : loc) (m : member) : outcome ptr :=
  '(T, cond, true_branch, false_branch) ← load_if h l;
  Ok (match m with
      | member_cond => cond
      | member_true_branch => true_branch
      | member_false_branch => false_branch
      end).

Definition write_member (h : heap) (l : loc) (m : member) (p : ptr)
  : outcome heap :=
  '(T, cond, true_branch, false_branch) ← load_if h l;
  store h l (match m with
             | member_cond => if_expr T p true_branch false_branch
             | member_true_branch => if_expr T cond p false_branch
             | member_false_branch => if_expr T cond true_branch p
             end).

Definition eval_rvalue (h : heap) (this o : loc) (e : rvalue) : outcome ptr :=
  match e with
  | rv_nullptr => Ok None
  | rv_member ob m => read_member h (address_of this o ob) m
  end.

(** The statements of a body, one after the other. *)
Fixpoint exec_body (fuel : nat) (this o : loc) (ss : list stmt) (h : heap)
  : outcome heap :=
  match ss with
  | [] => Ok h
  | stmt_return_if_same :: ss' =>
      if decide (o = this) then Ok h else exec_body fuel this o ss' h
  | stmt_delete m :: ss' =>
      p ← read_member h this m;
      h ← delete_expr fuel h p;
      exec_body fuel this o ss' h
  | stmt_assign ob m e :: ss' =>
      p ← eval_rvalue h this o e;
      h ← write_member h (address_of this o ob) m p;
      exec_body fuel this o ss' h
  end.

(** Instantiating an assignment operator: there is a function to call only
    if the body is well-formed. *)
Definition instantiate (op : assignment_operator)
  : option (nat → heap → loc → loc → outcome heap) :=
  if well_formed op
  then Some (λ fuel h this o, exec_body fuel this o (op_body op) h)
  else None.

(** [operator=(const if_expr& o)], as far as it can be called. *)
Definition if_expr_copy_assign
  : option (nat → heap → loc → loc → outcome heap) :=
  instantiate copy_assign_operator.

(** ** [clone] *)

(** Virtual [clone()].  [const_expr::clone] and [if_expr::clone] are
    [new] of a copy of [*this], that is the class's copy constructor on fresh
    storage; [bin_op_expr::clone] clones both operands and builds a node from
    them (the two operand clones are arguments of one call; they are taken
    left to right here, which only decides the addresses). *)
Fixpoint clone (fuel : nat) (h : heap) (p : ptr) : outcome (heap * loc) :=
  match fuel with
  | O => Fault OutOfFuel
  | S fuel' =>
      match p with
      | None => Fault NullDeref
      | Some l =>
          n ← deref h (Some l);
          match n with
          | const_expr T val => Ok (alloc h (const_expr T val))
          | bin_op_expr T A B fn name left_arg right_arg =>
              '(h, l') ← clone fuel' h left_arg;
              '(h, r') ← clone fuel' h right_arg;
              Ok (alloc h (bin_op_expr T A B fn name (Some l') (Some r')))
          | if_expr T _ _ _ => if_expr_copy_ctor h l
          end
      end
  end.

(** ** Termination-free views of [eval] and [print] *)

(** [p->eval()] returns [v]. *)
Definition evaluates (h : heap) (p : ptr) (v : value) : Prop :=
  ∃ fuel, eval fuel h p = Ok v.

(** [p->print(out)] on an empty stream writes [s]. *)
Definition renders (h : heap) (p : ptr) (s : string) : Prop :=
  ∃ fuel, print fuel h p "" = Ok s.

(** ** Evaluation with the order of operand calls left open

    [fn(left_arg->eval(), right_arg->eval())] has the two calls as arguments
    of one call, and C++ does not fix the order in which the arguments of a
    call are evaluated.  [eval_rel h p tr v] is a completed run of
    [p->eval()] returning [v]; [tr] lists the nodes in the order their [eval]
    was entered.  A binary operator has a run for either order. *)
Inductive eval_rel (h : heap) : ptr → list loc → value → Prop :=
| ER_const l T val :
    h !! l = Some (const_expr T val) →
    eval_rel h (Some l) [l] (Dyn T val)
| ER_bin_left_first l T A B (fn : tyD A → tyD B → tyD T) name pl pr trl trr a b :
    h !! l = Some (bin_op_expr T A B fn name pl pr) →
    eval_rel h pl trl (Dyn A a) →
    eval_rel h pr trr (Dyn B b) →
    eval_rel h (Some l) (l :: trl ++ trr) (Dyn T (fn a b))
| ER_bin_right_first l T A B (fn : tyD A → tyD B → tyD T) name pl pr trl trr a b :
    h !! l = Some (bin_op_expr T A B fn name pl pr) →
    eval_rel h pr trr (Dyn B b) →
    eval_rel h pl trl (Dyn A a) →
    eval_rel h (Some l) (l :: trr ++ trl) (Dyn T (fn a b))
| ER_if_true l T c pt pf tr v :
    h !! l = Some (if_expr T (Some c) pt pf) →
    eval_rel h pt tr v →
    eval_rel h (Some l) (l :: tr) v
| ER_if_false l T pt pf tr v :
    h !! l = Some (if_expr T None pt pf) →
    eval_rel h pf tr v →
    eval_rel h (Some l) (l :: tr) v.

(** The reading of "left operand strictly before right operand": every run of
    the binary operator at [l] is the node, then a whole run of the left
    operand, then a whole run of the right operand. *)
Definition left_before_right (h : heap) (l : loc) : Prop :=
  ∀ tr v, eval_rel h (Some l) tr v →
    ∃ T A B (fn : tyD A → tyD B → tyD T) name pl pr trl trr x y,
      h !! l = Some (bin_op_expr T A B fn name pl pr) ∧
      eval_rel h pl trl x ∧ eval_rel h pr trr y ∧
      tr = l :: trl ++ trr.

(** ** The binary operator's constructors and assignments *)

(** [const_expr(v)] on fresh storage. *)
Definition const_expr_ctor (h : heap) (T : ty) (v : tyD T) : heap * loc :=
  alloc h (const_expr T v).

(** [bin_op_expr(f, n, l, r)] on fresh storage: the two raw pointers go into
    the [unique_ptr] members. *)
Definition bin_op_expr_ctor (h : heap) (T A B : ty)
    (f : tyD A → tyD B → tyD T) (n : string) (l r : ptr) : heap * loc :=
  alloc h (bin_op_expr T A B f n l r).

(** [bin_op_expr(const bin_op_expr& o)]: the member initialisers run in
    declaration order, so [o.left_arg] is cloned before [o.right_arg]. *)
Definition bin_op_expr_copy_ctor (fuel : nat) (h : heap) (o : loc)
  : outcome (heap * loc) :=
  n ← deref h (Some o);
  match n with
  | bin_op_expr T A B o_fn o_name o_left o_right =>
      '(h, l') ← clone fuel h o_left;
      '(h, r') ← clone fuel h o_right;
      Ok (alloc h (bin_op_expr T A B o_fn o_name (Some l') (Some r')))
  | _ => Fault IllTyped
  end.

(** [operator=(const bin_op_expr& o)].  [reset(p)] stores [p] and then
    deletes what the [unique_ptr] held before.  [o] is read again for its
    right operand, after the old left operand has been deleted. *)
Definition bin_op_expr_copy_assign (fuel : nat) (h : heap) (this o : loc)
  : outcome heap :=
  if decide (o = this) then Ok h else
  n_this ← deref h (Some this);
  n_o ← deref h (Some o);
  match n_this, n_o with
  | bin_op_expr T A B _ _ left_arg right_arg,
    bin_op_expr T' A' B' o_fn o_name o_left _ =>
      if decide ((T, A, B) = (T', A', B')) then
        h ← store h this (bin_op_expr T' A' B' o_fn o_name left_arg right_arg);
        '(h, l') ← clone fuel h o_left;
        h ← store h this (bin_op_expr T' A' B' o_fn o_name (Some l') right_arg);
        h ← delete_expr fuel h left_arg;
        n_o ← deref h (Some o);
        match n_o with
        | bin_op_expr _ _ _ _ _ _ o_right =>
            '(h, r') ← clone fuel h o_right;
            h ← store h this
                  (bin_op_expr T' A' B' o_fn o_name (Some l') (Some r'));
            delete_expr fuel h right_arg
        | _ => Fault IllTyped
        end
      else Fault IllTyped
  | _, _ => Fault IllTyped
  end.

(** What a moved-from [std::function] and a moved-from [std::string] hold is
    "valid but unspecified"; the two functions of this record stand for it.
    Nothing proved below depends on them. *)
Record moved_state := MovedState {
  moved_fn : ∀ T A B : ty, (tyD A → tyD B → tyD T) → tyD A → tyD B → tyD T;
  moved_name : string → string
}.

(** [bin_op_expr(bin_op_expr&&) = default]: member by member; a moved-from
    [unique_ptr] is null. *)
Definition bin_op_expr_move_ctor (mv : moved_state) (h : heap) (o : loc)
  : outcome (heap * loc) :=
  n ← deref h (Some o);
  match n with
  | bin_op_expr T A B o_fn o_name o_left o_right =>
      let '(h, this) := alloc h (bin_op_expr T A B o_fn o_name o_left o_right) in
      h ← store h o (bin_op_expr T A B (moved_fn mv T A B o_fn)
                       (moved_name mv o_name) None None);
      Ok (h, this)
  | _ => Fault IllTyped
  end.

(** [operator=(bin_op_expr&&) = default]: member by member, with no test for
    self-assignment.  Move assignment of a [unique_ptr] is
    [reset(o.release())]: the source is nulled, the pointer stored, and what
    was held before deleted.  Moving a node into itself keeps both pointers
    (the released pointer is stored back, and the null left behind is what
    gets deleted) and leaves [fn] and [name] unspecified. *)
Definition bin_op_expr_move_assign (mv : moved_state) (fuel : nat) (h : heap)
    (this o : loc) : outcome heap :=
  n_this ← deref h (Some this);
  n_o ← deref h (Some o);
  match n_this, n_o with
  | bin_op_expr T A B fn name left_arg right_arg,
    bin_op_expr T' A' B' o_fn o_name o_left o_right =>
      if decide ((T, A, B) = (T', A', B')) then
        if decide (o = this) then
          store h this (bin_op_expr T A B (moved_fn mv T A B fn)
                          (moved_name mv name) left_arg right_arg)
        else
          let o_fn' := moved_fn mv T' A' B' o_fn in
          let o_name' := moved_name mv o_name in
          h ← store h o (bin_op_expr T' A' B' o_fn' o_name' None o_right);
          h ← store h this (bin_op_expr T' A' B' o_fn o_name o_left right_arg);
          h ← delete_expr fuel h left_arg;
          n_o ← deref h (Some o);
          match n_o with
          | bin_op_expr _ _ _ _ _ _ o_right =>
              h ← store h o (bin_op_expr T' A' B' o_fn' o_name' None None);
              h ← store h this (bin_op_expr T' A' B' o_fn o_name o_left o_right);
              delete_expr fuel h right_arg
          | _ => Fault IllTyped
          end
      else Fault IllTyped
  | _, _ => Fault IllTyped
  end.

(** ** Trees without conditionals *)

(** [plain h p]: [p] points at a constant, or at a binary operator whose two
    operands are plain.  These are the nodes [clone] walks through; at a
    conditional it stops and copies pointers. *)
Inductive plain (h : heap) : ptr → Prop :=
| plain_const l T val :
    h !! l = Some (const_expr T val) →
    plain h (Some l)
| plain_bin_op l T A B (fn : tyD A → tyD B → tyD T) name pl pr :
    h !! l = Some (bin_op_expr T A B fn name pl pr) →
    plain h pl → plain h pr →
    plain h (Some l).

(** ** The driver *)

Module Driver.

Local Open Scope Z_scope.

(** [int] is 32 bits wide.  Overflow of signed arithmetic is undefined in
    C++; the wrap-around written here is what the hardware does and is not
    reached by the trees of [main]. *)
Definition int_wrap (z : Z) : Z := (z + 2 ^ 31) `mod` 2 ^ 32 - 2 ^ 31.

(** [int] to [bool]: anything but zero is [true]. *)
Definition int_to_bool (z : Z) : bool := negb (z =? 0).

(** [bool] to [int]. *)
Definition bool_to_int (b : bool) : Z := if b then 1 else 0.

(** [int plus(int a, int b)] *)
Definition plus (a b : Z) : Z := int_wrap (a + b).

(** [bool equals(int a, int b)] *)
Definition equals (a b : Z) : bool := a =? b.

(** [bool mult(int a, int b)]: the product is converted to the declared
    return type [bool]. *)
Definition mult (a b : Z) : bool := int_to_bool (int_wrap (a * b)).

(** [bool sub(int a, int b)] *)
Definition sub (a b : Z) : bool := int_to_bool (int_wrap (a - b)).

(** [std::endl] as far as the text goes. *)
Definition endl : string := String "010"%char "".

(** [out << v] for a value of known type. *)
Definition show_value (x : value) : string :=
  match x with Dyn T v => show T v end.

Definition expect (T : ty) (x : value) : outcome (tyD T) :=
  match as_ty T x with
  | Some v => Ok v
  | None => Fault IllTyped
  end.

(** [my_expr]: [mult] is stored in a [std::function<int(int,int)>], which
    converts what [mult] returns to [int]. *)
Definition build_my_expr (h : heap) : heap * loc :=
  let '(h, eight) := alloc h (const_expr TInt 8) in
  let '(h, five) := alloc h (const_expr TInt 5) in
  let '(h, product) :=
    alloc h (bin_op_expr TInt TInt TInt
               (λ a b, bool_to_int (mult a b)) "*" (Some eight) (Some five)) in
  let '(h, forty) := alloc h (const_expr TInt 40) in
  alloc h (bin_op_expr TBool TInt TInt equals "==" (Some product) (Some forty)).

(** [my_expr_two] *)
Definition build_my_expr_two (h : heap) (my_expr : loc) : heap * loc :=
  let '(h, correct) := alloc h (const_expr TString "correct") in
  let '(h, incorrect) := alloc h (const_expr TString "incorrect") in
  if_expr_ctor h TString (Some my_expr) (Some correct) (Some incorrect).

(** [cout << e << "\n = " << v << endl] *)
Definition report (fuel : nat) (h : heap) (e : loc) (sep : string)
    (shown : value → outcome string) (cout : string) : outcome string :=
  cout ← print fuel h (Some e) cout;
  v ← eval fuel h (Some e);
  s ← shown v;
  Ok (cout +:+ sep +:+ s +:+ endl).

(** [main]: what is written to [std::cout], and the store at exit. *)
Definition main (fuel : nat) : outcome (string * heap) :=
  let h : heap := ∅ in
  let cout := "" in
  let '(h, two) := alloc h (const_expr TInt 2) in
  cout ← report fuel h two " = " (λ v, Ok (show_value v)) cout;
  '(h, two') ← clone fuel h (Some two);
  let '(h, sum) :=
    alloc h (bin_op_expr TInt TInt TInt plus "+" (Some two) (Some two')) in
  let '(h, four) := alloc h (const_expr TInt 4) in
  let '(h, cond) :=
    alloc h (bin_op_expr TBool TInt TInt equals "==" (Some sum) (Some four)) in
  cout ← report fuel h cond " = "
    (λ v, b ← expect TBool v; Ok (if b : bool then "true" else "false")) cout;
  let '(h, correct) := alloc h (const_expr TString "correct") in
  let '(h, incorrect) := alloc h (const_expr TString "incorrect") in
  let '(h, root) :=
    if_expr_ctor h TString (Some cond) (Some correct) (Some incorrect) in
  cout ← report fuel h root (endl +:+ " = ") (λ v, Ok (show_value v)) cout;
  let '(h, my_expr) := build_my_expr h in
  let '(h, my_expr_two) := build_my_expr_two h my_expr in
  cout ← report fuel h my_expr (endl +:+ " = ") (λ v, Ok (show_value v)) cout;
  cout ← report fuel h my_expr_two (endl +:+ " = ") (λ v, Ok (show_value v)) cout;
  h ← delete_expr fuel h (Some my_expr_two);
  h ← delete_expr fuel h (Some root);
  Ok (cout, h).

End Driver.

(** ** Sample stores *)

Module Samples.

Local Open Scope positive_scope.

(** [2 + 3] at address 3. *)
Definition h_sum : heap :=
  <[3 := bin_op_expr TInt TInt TInt Driver.plus "+" (Some 1) (Some 2)]>
  (<[2 := const_expr TInt 3%Z]>
  (<[1 := const_expr TInt 2%Z]> ∅)).

(** At address 6, a conditional on [2 == 3] with the branches ["yes"] and
    ["no"]. *)
Definition h_if : heap :=
  <[6 := if_expr TString (Some 3) (Some 4) (Some 5)]>
  (<[5 := const_expr TString "no"]>
  (<[4 := const_expr TString "yes"]>
  (<[3 := bin_op_expr TBool TInt TInt Driver.equals "==" (Some 1) (Some 2)]>
  (<[2 := const_expr TInt 3%Z]>
  (<[1 := const_expr TInt 2%Z]> ∅))))).

(** [h_if] and, at address 10, a second conditional with a constant
    condition and the branches ["a"] and ["b"]. *)
Definition h_pair : heap :=
  <[10 := if_expr TString (Some 7) (Some 8) (Some 9)]>
  (<[9 := const_expr TString "b"]>
  (<[8 := const_expr TString "a"]>
  (<[7 := const_expr TBool true]> h_if))).

End Samples.

(** ** More sample stores *)

Module MoreSamples.

Local Open Scope positive_scope.

(** [int times(int a, int b)], a product that stays an [int]. *)
Definition times (a b : Z) : Z := Driver.int_wrap (a * b).

(** A store with one constant. *)
Definition h_one : heap := {[7 := const_expr TString "x"]}.

(** The target of an assignment: [6 * 7] at address 13, alone in its store. *)
Definition h_target : heap :=
  <[13 := bin_op_expr TInt TInt TInt times "*" (Some 11) (Some 12)]>
  (<[12 := const_expr TInt 7%Z]>
  (<[11 := const_expr TInt 6%Z]> ∅)).

(** Three constants, each alone in its store. *)
Definition h_c : heap := {[1 := const_expr TBool true]}.
Definition h_t : heap := {[2 := const_expr TString "a"]}.
Definition h_f : heap := {[3 := const_expr TString "b"]}.

(** What is left of the moved-from operator of [Samples.h_sum] when the
    moved-from function and name keep what they held. *)
Definition mv_keep : moved_state :=
  MovedState (λ T A B f, f) (λ s, s).

(** The same when the moved-from name is emptied. *)
Definition mv_empty : moved_state :=
  MovedState (λ T A B f, f) (λ s, "").

End MoreSamples.

(** * Properties *)

(** ** Working with [outcome] *)

Lemma bind_Ok {X Y : Type} (m : outcome X) (k : X → outcome Y) (y : Y) :
  m ≫= k = Ok y ↔ ∃ x, m = Ok x ∧ k x = Ok y.
Proof.
  destruct m as [x|f]; simpl; split.
  - eauto.
  - intros (x' & [= <-] & Hk). exact Hk.
  - discriminate.
  - intros (x' & [=] & _).
Qed.

Lemma Ok_inj {X : Type} (x y : X) : Ok x = Ok y → x = y.
Proof. by intros [= ->]. Qed.

Lemma deref_Ok (h : heap) (p : ptr) (n : node) :
  deref h p = Ok n ↔ ∃ l, p = Some l ∧ h !! l = Some n.
Proof.
  unfold deref. destruct p as [l|].
  - destruct (h !! l) as [n'|] eqn:Hl; split.
    + intros [= <-]. eauto.
    + intros (l' & [= <-] & Hn). congruence.
    + discriminate.
    + intros (l' & [= <-] & Hn). congruence.
  - split; [discriminate | intros (l' & [=] & _)].
Qed.

Lemma deref_weaken (h h' : heap) (p : ptr) (n : node) :
  h ⊆ h' → deref h p = Ok n → deref h' p = Ok n.
Proof.
  intros Hsub (l & -> & Hl)%deref_Ok. apply deref_Ok.
  exists l. split; [done|]. by eapply lookup_weaken.
Qed.

(** Destructs the first [≫=] of a successful run. *)
Ltac inv_bind H :=
  let x := fresh "x" in
  let Hx := fresh "Hx" in
  apply bind_Ok in H; destruct H as (x & Hx & H).

(** ** More fuel and a larger store do not change a result *)

Lemma eval_mono (fuel fuel' : nat) (h : heap) (p : ptr) (v : value) :
  eval fuel h p = Ok v → fuel ≤ fuel' → eval fuel' h p = Ok v.
Proof.
  revert fuel' p v. induction fuel as [|n IH]; intros fuel' p v He Hle.
  { discriminate. }
  destruct fuel' as [|m]; [lia|]. simpl in *.
  inv_bind He. rewrite Hx; simpl. destruct x as [T val|T A B fn name pl pr|T c pt pf].
  - exact He.
  - inv_bind He. inv_bind He.
    rewrite (IH m pl x) by (done || lia); simpl.
    rewrite (IH m pr x0) by (done || lia); simpl. exact He.
  - destruct (ptr_to_bool c); apply IH; (done || lia).
Qed.

Lemma eval_weaken (fuel : nat) (h h' : heap) (p : ptr) (v : value) :
  h ⊆ h' → eval fuel h p = Ok v → eval fuel h' p = Ok v.
Proof.
  intros Hsub. revert p v. induction fuel as [|n IH]; intros p v He.
  { discriminate. }
  simpl in *. inv_bind He. rewrite (deref_weaken h h' p x Hsub Hx); simpl.
  destruct x as [T val|T A B fn name pl pr|T c pt pf].
  - exact He.
  - inv_bind He. inv_bind He.
    rewrite (IH pl x) by done; simpl. rewrite (IH pr x0) by done; simpl. exact He.
  - destruct (ptr_to_bool c); by apply IH.
Qed.

Lemma eval_deterministic (fuel fuel' : nat) (h : heap) (p : ptr) (v v' : value) :
  eval fuel h p = Ok v → eval fuel' h p = Ok v' → v = v'.
Proof.
  intros H1 H2.
  apply (eval_mono _ (fuel `max` fuel')) in H1; [|lia].
  apply (eval_mono _ (fuel `max` fuel')) in H2; [|lia].
  congruence.
Qed.

Lemma print_mono (fuel fuel' : nat) (h : heap) (p : ptr) (out s : string) :
  print fuel h p out = Ok s → fuel ≤ fuel' → print fuel' h p out = Ok s.
Proof.
  revert fuel' p out s. induction fuel as [|n IH]; intros fuel' p out s He Hle.
  { discriminate. }
  destruct fuel' as [|m]; [lia|]. simpl in *.
  inv_bind He. rewrite Hx; simpl. destruct x as [T val|T A B fn name pl pr|T c pt pf].
  - exact He.
  - inv_bind He. inv_bind He.
    rewrite (IH m pl _ x) by (done || lia); simpl.
    rewrite (IH m pr _ x0) by (done || lia); simpl. exact He.
  - exact He.
Qed.

Lemma print_weaken (fuel : nat) (h h' : heap) (p : ptr) (out s : string) :
  h ⊆ h' → print fuel h p out = Ok s → print fuel h' p out = Ok s.
Proof.
  intros Hsub. revert p out s. induction fuel as [|n IH]; intros p out s He.
  { discriminate. }
  simpl in *. inv_bind He. rewrite (deref_weaken h h' p x Hsub Hx); simpl.
  destruct x as [T val|T A B fn name pl pr|T c pt pf].
  - exact He.
  - inv_bind He. inv_bind He.
    rewrite (IH pl _ x) by done; simpl. rewrite (IH pr _ x0) by done; simpl. exact He.
  - exact He.
Qed.

Lemma string_app_assoc (a b c : string) : (a +:+ b) +:+ c = a +:+ (b +:+ c).
Proof.
  induction a as [|ch a IH]; [reflexivity|].
  change (String ch ((a +:+ b) +:+ c) = String ch (a +:+ b +:+ c)).
  by rewrite IH.
Qed.

Lemma string_app_nil_l (a : string) : "" +:+ a = a.
Proof. reflexivity. Qed.

(** What [print] writes does not depend on what the stream already holds: the
    text is appended. *)
Lemma print_appends (fuel : nat) (h : heap) (p : ptr) (out s : string) :
  print fuel h p out = Ok s →
  ∃ w, s = out +:+ w ∧ ∀ out', print fuel h p out' = Ok (out' +:+ w).
Proof.
  revert p out s. induction fuel as [|n IH]; intros p out s He.
  { discriminate. }
  simpl in He. inv_bind He. destruct x as [T val|T A B fn name pl pr|T c pt pf].
  - injection He as <-. exists (show T val). split; [done|].
    intros out'. simpl. by rewrite Hx.
  - inv_bind He. inv_bind He. injection He as <-.
    apply IH in Hx0 as (wl & -> & Hl). apply IH in Hx1 as (wr & -> & Hr).
    exists ("(" +:+ wl +:+ " " +:+ name +:+ " " +:+ wr +:+ ")"). split.
    + by rewrite !string_app_assoc.
    + intros out'. simpl. rewrite Hx; simpl. rewrite Hl; simpl. rewrite Hr; simpl.
      by rewrite !string_app_assoc.
  - exists (if ptr_to_bool c then "true" else "false"). split.
    + destruct (ptr_to_bool c); by injection He as <-.
    + intros out'. simpl. rewrite Hx; simpl. by destruct (ptr_to_bool c).
Qed.

(** ** Values at their type *)

Lemma as_ty_Dyn (A : ty) (a : tyD A) : as_ty A (Dyn A a) = Some a.
Proof. by destruct A. Qed.

Lemma as_ty_Some (A : ty) (x : value) (a : tyD A) :
  as_ty A x = Some a → x = Dyn A a.
Proof.
  destruct x as [T v]. unfold as_ty.
  destruct (ty_eq_dec T A) as [e|]; [|discriminate].
  destruct e. simpl. by intros [= ->].
Qed.

Lemma apply_fn_Dyn {T A B : ty} (fn : tyD A → tyD B → tyD T) (a : tyD A) (b : tyD B) :
  apply_fn fn (Dyn A a) (Dyn B b) = Ok (Dyn T (fn a b)).
Proof. unfold apply_fn. by rewrite !as_ty_Dyn. Qed.

Lemma apply_fn_Ok {T A B : ty} (fn : tyD A → tyD B → tyD T) (x y v : value) :
  apply_fn fn x y = Ok v →
  ∃ a b, x = Dyn A a ∧ y = Dyn B b ∧ v = Dyn T (fn a b).
Proof.
  unfold apply_fn.
  destruct (as_ty A x) as [a|] eqn:Ha; [|discriminate].
  destruct (as_ty B y) as [b|] eqn:Hb; [|discriminate].
  intros [= <-]. exists a, b.
  by rewrite (as_ty_Some _ _ _ Ha), (as_ty_Some _ _ _ Hb).
Qed.

(** ** One step of [eval] and [print] at each class of node *)

Lemma eval_const_expr (fuel : nat) (h : heap) (l : loc) (T : ty) (val : tyD T) :
  h !! l = Some (const_expr T val) →
  eval (S fuel) h (Some l) = Ok (Dyn T val).
Proof. intros Hl. simpl. by rewrite Hl. Qed.

Lemma eval_bin_op_expr (fuel : nat) (h : heap) (l : loc) (T A B : ty)
    (fn : tyD A → tyD B → tyD T) (name : string) (pl pr : ptr) :
  h !! l = Some (bin_op_expr T A B fn name pl pr) →
  eval (S fuel) h (Some l) =
    (x ← eval fuel h pl; y ← eval fuel h pr; apply_fn fn x y).
Proof. intros Hl. simpl. by rewrite Hl. Qed.

(** [if_expr::eval] looks at the pointer [cond], not at what the condition
    evaluates to: with a condition node in place the true branch is taken. *)
Lemma eval_if_expr_cond_present (fuel : nat) (h : heap) (l c : loc) (T : ty)
    (pt pf : ptr) :
  h !! l = Some (if_expr T (Some c) pt pf) →
  eval (S fuel) h (Some l) = eval fuel h pt.
Proof. intros Hl. simpl. by rewrite Hl. Qed.

Lemma eval_if_expr_cond_null (fuel : nat) (h : heap) (l : loc) (T : ty)
    (pt pf : ptr) :
  h !! l = Some (if_expr T None pt pf) →
  eval (S fuel) h (Some l) = eval fuel h pf.
Proof. intros Hl. simpl. by rewrite Hl. Qed.

Lemma print_if_expr_cond_present (fuel : nat) (h : heap) (l c : loc) (T : ty)
    (pt pf : ptr) (out : string) :
  h !! l = Some (if_expr T (Some c) pt pf) →
  print (S fuel) h (Some l) out = Ok (out +:+ "true").
Proof. intros Hl. simpl. by rewrite Hl. Qed.

Lemma print_if_expr_cond_null (fuel : nat) (h : heap) (l : loc) (T : ty)
    (pt pf : ptr) (out : string) :
  h !! l = Some (if_expr T None pt pf) →
  print (S fuel) h (Some l) out = Ok (out +:+ "false").
Proof. intros Hl. simpl. by rewrite Hl. Qed.

Lemma evaluates_bin_op_expr (h : heap) (l : loc) (T A B : ty)
    (fn : tyD A → tyD B → tyD T) (name : string) (pl pr : ptr) (v : value) :
  h !! l = Some (bin_op_expr T A B fn name pl pr) →
  evaluates h (Some l) v ↔
  ∃ a b, evaluates h pl (Dyn A a) ∧ evaluates h pr (Dyn B b) ∧ v = Dyn T (fn a b).
Proof.
  intros Hl. split.
  - intros [[|fuel] He]; [discriminate|].
    rewrite (eval_bin_op_expr _ _ _ _ _ _ _ _ _ _ Hl) in He.
    inv_bind He. inv_bind He.
    apply apply_fn_Ok in He as (a & b & -> & -> & ->).
    exists a, b. split; [by exists fuel|]. split; [by exists fuel|done].
  - intros (a & b & [n Ha] & [m Hb] & ->). exists (S (n `max` m)).
    rewrite (eval_bin_op_expr _ _ _ _ _ _ _ _ _ _ Hl).
    rewrite (eval_mono n _ h pl _ Ha) by lia; simpl.
    rewrite (eval_mono m _ h pr _ Hb) by lia; simpl.
    apply apply_fn_Dyn.
Qed.

Lemma renders_bin_op_expr (h : heap) (l : loc) (T A B : ty)
    (fn : tyD A → tyD B → tyD T) (name : string) (pl pr : ptr) (sl sr : string) :
  h !! l = Some (bin_op_expr T A B fn name pl pr) →
  renders h pl sl → renders h pr sr →
  renders h (Some l) ("(" +:+ sl +:+ " " +:+ name +:+ " " +:+ sr +:+ ")").
Proof.
  intros Hl [n Hn] [m Hm]. exists (S (n `max` m)).
  apply (print_mono _ (n `max` m)) in Hn; [|lia].
  apply (print_mono _ (n `max` m)) in Hm; [|lia].
  apply print_appends in Hn as (wl & Hwl & Hn).
  apply print_appends in Hm as (wr & Hwr & Hm).
  rewrite string_app_nil_l in Hwl, Hwr. subst wl wr.
  simpl. rewrite Hl; simpl. rewrite Hn; simpl. rewrite Hm; simpl.
  by rewrite !string_app_assoc.
Qed.

(** ** Allocation *)

Lemma alloc_fresh (h : heap) (n : node) : h !! (alloc h n).2 = None.
Proof. simpl. apply not_elem_of_dom, is_fresh. Qed.

Lemma alloc_lookup (h : heap) (n : node) : (alloc h n).1 !! (alloc h n).2 = Some n.
Proof. simpl. apply lookup_insert_eq. Qed.

Lemma alloc_subseteq (h : heap) (n : node) : h ⊆ (alloc h n).1.
Proof. simpl. apply insert_subseteq, (alloc_fresh h n). Qed.

Lemma alloc_inv (h h' : heap) (n : node) (l : loc) :
  alloc h n = (h', l) → h !! l = None ∧ h' !! l = Some n ∧ h ⊆ h'.
Proof.
  intros Ha. pose proof (alloc_fresh h n) as Hf.
  pose proof (alloc_lookup h n) as Hl. pose proof (alloc_subseteq h n) as Hs.
  rewrite Ha in Hf, Hl, Hs. done.
Qed.

(** ** [clone] *)

Lemma load_if_Ok (h : heap) (l : loc) (T : ty) (c t f : ptr) :
  load_if h l = Ok (T, c, t, f) ↔ h !! l = Some (if_expr T c t f).
Proof.
  unfold load_if, deref. destruct (h !! l) as [[| |]|]; simpl; split; congruence.
Qed.

(** The conditional's copy is a node with the very same three pointers. *)
Lemma if_expr_copy_ctor_shares (h : heap) (o : loc) (T : ty) (c t f : ptr) :
  h !! o = Some (if_expr T c t f) →
  if_expr_copy_ctor h o = Ok (alloc h (if_expr T c t f)).
Proof.
  intros Ho. unfold if_expr_copy_ctor.
  apply load_if_Ok in Ho. by rewrite Ho.
Qed.

Lemma clone_subseteq (fuel : nat) (h h' : heap) (p : ptr) (l' : loc) :
  clone fuel h p = Ok (h', l') → h ⊆ h'.
Proof.
  revert h h' p l'. induction fuel as [|n IH]; intros h h' p l' Hc.
  { discriminate. }
  simpl in Hc. destruct p as [l|]; [|discriminate].
  destruct (h !! l) as [x|] eqn:Hl; [|discriminate]. simpl in Hc.
  destruct x as [T val|T A B fn name pl pr|T c pt pf].
  - by apply Ok_inj, alloc_inv in Hc as (_ & _ & ?).
  - inv_bind Hc. destruct x as [h1 l1]. inv_bind Hc. destruct x as [h2 l2].
    apply Ok_inj, alloc_inv in Hc as (_ & _ & Hs).
    apply IH in Hx, Hx0. by do 2 (etrans; [eassumption|]).
  - rewrite (if_expr_copy_ctor_shares _ _ _ _ _ _ Hl) in Hc.
    by apply Ok_inj, alloc_inv in Hc as (_ & _ & ?).
Qed.

(** Whatever the original evaluates to, the clone evaluates to. *)
Lemma clone_eval (fuel : nat) (h h' : heap) (p : ptr) (l' : loc) :
  clone fuel h p = Ok (h', l') →
  ∀ m v, eval m h p = Ok v → eval m h' (Some l') = Ok v.
Proof.
  revert h h' p l'. induction fuel as [|n IH]; intros h h' p l' Hc m v He.
  { discriminate. }
  simpl in Hc. destruct p as [l|]; [|discriminate].
  destruct (h !! l) as [x|] eqn:Hl; [|discriminate]. simpl in Hc.
  destruct m as [|m]; [discriminate|].
  destruct x as [T val|T A B fn name pl pr|T c pt pf].
  - apply Ok_inj, alloc_inv in Hc as (_ & Hl' & _).
    rewrite (eval_const_expr _ _ _ _ _ Hl) in He.
    by rewrite (eval_const_expr _ _ _ _ _ Hl').
  - inv_bind Hc. destruct x as [h1 l1]. inv_bind Hc. destruct x as [h2 l2].
    apply Ok_inj, alloc_inv in Hc as (_ & Hl' & Hs).
    rewrite (eval_bin_op_expr _ _ _ _ _ _ _ _ _ _ Hl) in He.
    rewrite (eval_bin_op_expr _ _ _ _ _ _ _ _ _ _ Hl').
    inv_bind He. inv_bind He.
    pose proof (clone_subseteq _ _ _ _ _ Hx) as Hs1.
    pose proof (clone_subseteq _ _ _ _ _ Hx0) as Hs2.
    apply (IH _ _ _ _ Hx) in Hx1.
    apply (eval_weaken _ _ h1 _ _ Hs1), (IH _ _ _ _ Hx0) in Hx2.
    rewrite (eval_weaken _ h1 h' _ _ ltac:(by etrans) Hx1); simpl.
    rewrite (eval_weaken _ h2 h' _ _ Hs Hx2); simpl. exact He.
  - rewrite (if_expr_copy_ctor_shares _ _ _ _ _ _ Hl) in Hc.
    apply Ok_inj, alloc_inv in Hc as (_ & Hl' & Hs).
    simpl in He |- *. rewrite Hl in He. rewrite Hl'. simpl in He |- *.
    destruct (ptr_to_bool c); by eapply eval_weaken.
Qed.

(** Whatever the original prints, the clone prints. *)
Lemma clone_print (fuel : nat) (h h' : heap) (p : ptr) (l' : loc) :
  clone fuel h p = Ok (h', l') →
  ∀ m out s, print m h p out = Ok s → print m h' (Some l') out = Ok s.
Proof.
  revert h h' p l'. induction fuel as [|n IH]; intros h h' p l' Hc m out s He.
  { discriminate. }
  simpl in Hc. destruct p as [l|]; [|discriminate].
  destruct (h !! l) as [x|] eqn:Hl; [|discriminate]. simpl in Hc.
  destruct m as [|m]; [discriminate|].
  simpl in He. rewrite Hl in He. simpl in He.
  destruct x as [T val|T A B fn name pl pr|T c pt pf].
  - apply Ok_inj, alloc_inv in Hc as (_ & Hl' & _).
    simpl. by rewrite Hl'.
  - inv_bind Hc. destruct x as [h1 l1]. inv_bind Hc. destruct x as [h2 l2].
    apply Ok_inj, alloc_inv in Hc as (_ & Hl' & Hs).
    simpl. rewrite Hl'. simpl.
    inv_bind He. inv_bind He.
    pose proof (clone_subseteq _ _ _ _ _ Hx) as Hs1.
    pose proof (clone_subseteq _ _ _ _ _ Hx0) as Hs2.
    apply (IH _ _ _ _ Hx) in Hx1.
    apply (print_weaken _ _ h1 _ _ _ Hs1), (IH _ _ _ _ Hx0) in Hx2.
    rewrite (print_weaken _ h1 h' _ _ _ ltac:(by etrans) Hx1); simpl.
    rewrite (print_weaken _ h2 h' _ _ _ Hs Hx2); simpl. exact He.
  - rewrite (if_expr_copy_ctor_shares _ _ _ _ _ _ Hl) in Hc.
    apply Ok_inj, alloc_inv in Hc as (_ & Hl' & Hs).
    simpl. rewrite Hl'. simpl. exact He.
Qed.

(** [clone] returns wherever [eval] or [print] does: it reaches for no node
    that they do not reach for. *)
Lemma clone_total_eval (fuel : nat) (h : heap) (p : ptr) (v : value) :
  eval fuel h p = Ok v → ∃ h' l', clone fuel h p = Ok (h', l').
Proof.
  revert h p v. induction fuel as [|n IH]; intros h p v He.
  { discriminate. }
  simpl in He. inv_bind He. pose proof Hx as (l & -> & Hl)%deref_Ok.
  simpl. rewrite Hl. simpl.
  destruct x as [T val|T A B fn name pl pr|T c pt pf].
  - eauto.
  - inv_bind He. inv_bind He.
    destruct (IH _ _ _ Hx0) as (h1 & l1 & Hc1). rewrite Hc1. simpl.
    apply (eval_weaken _ _ h1 _ _ (clone_subseteq _ _ _ _ _ Hc1)) in Hx1.
    destruct (IH _ _ _ Hx1) as (h2 & l2 & Hc2). rewrite Hc2. simpl. eauto.
  - rewrite (if_expr_copy_ctor_shares _ _ _ _ _ _ Hl). eauto.
Qed.

Lemma clone_total_print (fuel : nat) (h : heap) (p : ptr) (out s : string) :
  print fuel h p out = Ok s → ∃ h' l', clone fuel h p = Ok (h', l').
Proof.
  revert h p out s. induction fuel as [|n IH]; intros h p out s He.
  { discriminate. }
  simpl in He. inv_bind He. pose proof Hx as (l & -> & Hl)%deref_Ok.
  simpl. rewrite Hl. simpl.
  destruct x as [T val|T A B fn name pl pr|T c pt pf].
  - eauto.
  - inv_bind He. inv_bind He.
    destruct (IH _ _ _ _ Hx0) as (h1 & l1 & Hc1). rewrite Hc1. simpl.
    apply (print_weaken _ _ h1 _ _ _ (clone_subseteq _ _ _ _ _ Hc1)) in Hx1.
    destruct (IH _ _ _ _ Hx1) as (h2 & l2 & Hc2). rewrite Hc2. simpl. eauto.
  - rewrite (if_expr_copy_ctor_shares _ _ _ _ _ _ Hl). eauto.
Qed.

(** ** Runs and the fuelled evaluator agree *)

Lemma eval_rel_evaluates (h : heap) (p : ptr) (tr : list loc) (v : value) :
  eval_rel h p tr v → evaluates h p v.
Proof.
  induction 1 as [l T val Hl
                 |l T A B fn name pl pr trl trr a b Hl _ IHl _ IHr
                 |l T A B fn name pl pr trl trr a b Hl _ IHr _ IHl
                 |l T c pt pf tr v Hl _ [n IH]
                 |l T pt pf tr v Hl _ [n IH]].
  - exists 1. by apply eval_const_expr.
  - apply (evaluates_bin_op_expr _ _ _ _ _ _ _ _ _ _ Hl). eauto.
  - apply (evaluates_bin_op_expr _ _ _ _ _ _ _ _ _ _ Hl). eauto.
  - exists (S n). by rewrite (eval_if_expr_cond_present _ _ _ _ _ _ _ Hl).
  - exists (S n). by rewrite (eval_if_expr_cond_null _ _ _ _ _ _ Hl).
Qed.

Lemma evaluates_eval_rel (h : heap) (p : ptr) (v : value) :
  evaluates h p v → ∃ tr, eval_rel h p tr v.
Proof.
  intros [fuel He]. revert p v He.
  induction fuel as [|n IH]; intros p v He; [discriminate|].
  simpl in He. inv_bind He. apply deref_Ok in Hx as (l & -> & Hl).
  destruct x as [T val|T A B fn name pl pr|T c pt pf].
  - injection He as <-. exists [l]. by constructor.
  - inv_bind He. inv_bind He.
    apply apply_fn_Ok in He as (a & b & -> & -> & ->).
    destruct (IH _ _ Hx) as [trl Hrl]. destruct (IH _ _ Hx0) as [trr Hrr].
    exists (l :: trl ++ trr). by eapply ER_bin_left_first.
  - destruct c as [c|]; simpl in He; destruct (IH _ _ He) as [tr Hr];
      exists (l :: tr).
    + by eapply ER_if_true.
    + by eapply ER_if_false.
Qed.

(** ** Claims *)

(** C1.  Claimed: a conditional node evaluates its condition and takes the
    true branch when the condition's value is true, the false branch
    otherwise.  On the sample store the condition [2 == 3] evaluates to
    [false], and evaluating the conditional returns ["yes"], the value of the
    true branch, never ["no"]: [if_expr::eval] tests the pointer [cond], which
    is not null, and does not evaluate the condition. *)
Theorem if_expr_eval_ignores_condition_value :
  evaluates Samples.h_if (Some 3%positive) (Dyn TBool false) ∧
  eval 2 Samples.h_if (Some 6%positive) = Ok (Dyn TString "yes") ∧
  ¬ evaluates Samples.h_if (Some 6%positive) (Dyn TString "no").
Proof.
  split; [by exists 2|]. split; [reflexivity|].
  intros [fuel He].
  assert (Hyes : eval 2 Samples.h_if (Some 6%positive) = Ok (Dyn TString "yes"))
    by reflexivity.
  pose proof (eval_deterministic _ _ _ _ _ _ He Hyes) as Heq.
  apply (f_equal (as_ty TString)) in Heq. discriminate Heq.
Qed.

(** C2.  Claimed: printing a conditional node renders the condition and both
    branches.  On the sample store the condition renders as [(2 == 3)] and
    the branches as [yes] and [no], and the conditional prints the four
    characters [true] and nothing else: [if_expr::print] writes a literal
    chosen by the null test of [cond]. *)
Theorem if_expr_print_collapsed_literal :
  renders Samples.h_if (Some 3%positive) "(2 == 3)" ∧
  renders Samples.h_if (Some 4%positive) "yes" ∧
  renders Samples.h_if (Some 5%positive) "no" ∧
  (∀ fuel out, print (S fuel) Samples.h_if (Some 6%positive) out = Ok (out +:+ "true")).
Proof.
  split; [by exists 2|]. split; [by exists 1|]. split; [by exists 1|].
  intros fuel out. by eapply print_if_expr_cond_present.
Qed.

(** C6.  For a binary operator node built from left operand [L], right
    operand [R], function [fn] and name [name]: when [L] evaluates to [a] and
    prints as [sl], and [R] evaluates to [b] and prints as [sr], the node
    evaluates to [fn a b] and prints as an opening parenthesis, [sl], a
    space, [name], a space, [sr] and a closing parenthesis. *)
Theorem bin_op_expr_eval_print (h : heap) (l : loc) (T A B : ty)
    (fn : tyD A → tyD B → tyD T) (name : string) (L R : ptr)
    (a : tyD A) (b : tyD B) (sl sr : string) :
  h !! l = Some (bin_op_expr T A B fn name L R) →
  evaluates h L (Dyn A a) → evaluates h R (Dyn B b) →
  renders h L sl → renders h R sr →
  evaluates h (Some l) (Dyn T (fn a b)) ∧
  renders h (Some l) ("(" +:+ sl +:+ " " +:+ name +:+ " " +:+ sr +:+ ")").
Proof.
  intros Hl Ha Hb Hsl Hsr. split.
  - apply (evaluates_bin_op_expr _ _ _ _ _ _ _ _ _ _ Hl). eauto.
  - by eapply renders_bin_op_expr.
Qed.

Lemma bin_op_expr_eval_print_witness :
  evaluates Samples.h_sum (Some 3%positive) (Dyn TInt 5%Z) ∧
  renders Samples.h_sum (Some 3%positive) "(2 + 3)".
Proof.
  apply (bin_op_expr_eval_print Samples.h_sum 3%positive TInt TInt TInt
           Driver.plus "+" (Some 1%positive) (Some 2%positive) 2%Z 3%Z "2" "3").
  - reflexivity.
  - exists 1. reflexivity.
  - exists 1. reflexivity.
  - exists 1. reflexivity.
  - exists 1. reflexivity.
Defined.

(** C7.  Clone round trip, for a node of any class: if [X] evaluates to [v]
    and prints as [s], then [X.clone()] returns, and the node it returns
    evaluates to [v] and prints as [s]. *)
Theorem clone_round_trip (h : heap) (X : ptr) (v : value) (s : string) :
  evaluates h X v → renders h X s →
  (∃ fuel h' l', clone fuel h X = Ok (h', l')) ∧
  (∀ fuel h' l', clone fuel h X = Ok (h', l') →
     evaluates h' (Some l') v ∧ renders h' (Some l') s).
Proof.
  intros [n He] [m Hp]. split.
  - destruct (clone_total_eval _ _ _ _ He) as (h' & l' & Hc). eauto.
  - intros fuel h' l' Hc. split.
    + exists n. by eapply clone_eval.
    + exists m. by eapply clone_print.
Qed.

Lemma clone_round_trip_witness :
  (∃ fuel h' l', clone fuel Samples.h_if (Some 6%positive) = Ok (h', l')) ∧
  (∀ fuel h' l', clone fuel Samples.h_if (Some 6%positive) = Ok (h', l') →
     evaluates h' (Some l') (Dyn TString "yes") ∧ renders h' (Some l') "true").
Proof.
  apply (clone_round_trip Samples.h_if (Some 6%positive) (Dyn TString "yes") "true").
  - exists 2. reflexivity.
  - exists 1. reflexivity.
Defined.

(** ** Runs of a binary operator *)

Lemma bin_op_expr_inj (T A B T0 A0 B0 : ty) (fn : tyD A → tyD B → tyD T)
    (fn0 : tyD A0 → tyD B0 → tyD T0) (name name0 : string) (pl pl0 pr pr0 : ptr) :
  bin_op_expr T A B fn name pl pr = bin_op_expr T0 A0 B0 fn0 name0 pl0 pr0 →
  T = T0 ∧ A = A0 ∧ B = B0 ∧ name = name0 ∧ pl = pl0 ∧ pr = pr0 ∧
  ∀ x y, apply_fn fn x y = apply_fn fn0 x y.
Proof.
  intros H.
  assert (Hfn : ∀ x y, apply_fn fn x y = apply_fn fn0 x y).
  { intros x y.
    exact (f_equal (λ n, match n with
                         | bin_op_expr _ _ _ f _ _ _ => apply_fn f x y
                         | _ => Fault IllTyped
                         end) H). }
  injection H as -> -> -> _ -> -> ->. done.
Qed.

Lemma eval_rel_const_inv (h : heap) (l : loc) (T : ty) (val : tyD T)
    (tr : list loc) (v : value) :
  h !! l = Some (const_expr T val) → eval_rel h (Some l) tr v → tr = [l].
Proof. intros Hl Hr. inversion Hr; subst; congruence. Qed.

Lemma eval_rel_bin_op_inv (h : heap) (l : loc) (T A B : ty)
    (fn : tyD A → tyD B → tyD T) (name : string) (pl pr : ptr)
    (tr : list loc) (v : value) :
  h !! l = Some (bin_op_expr T A B fn name pl pr) →
  eval_rel h (Some l) tr v →
  ∃ a b trl trr,
    eval_rel h pl trl (Dyn A a) ∧ eval_rel h pr trr (Dyn B b) ∧
    v = Dyn T (fn a b) ∧ (tr = l :: trl ++ trr ∨ tr = l :: trr ++ trl).
Proof.
  intros Hl Hr.
  inversion Hr as [l0 T0 val Hl0
                  |l0 T0 A0 B0 fn0 name0 pl0 pr0 trl trr a b Hl0 Hrl Hrr
                  |l0 T0 A0 B0 fn0 name0 pl0 pr0 trl trr a b Hl0 Hrr Hrl
                  |l0 T0 c pt pf tr0 v0 Hl0 Hr0
                  |l0 T0 pt pf tr0 v0 Hl0 Hr0]; subst; try congruence.
  - rewrite Hl in Hl0. apply (inj Some) in Hl0.
    apply bin_op_expr_inj in Hl0 as (<- & <- & <- & <- & <- & <- & Hfn).
    exists a, b, trl, trr. repeat split; [done..| |by left].
    specialize (Hfn (Dyn A a) (Dyn B b)). rewrite !apply_fn_Dyn in Hfn.
    by apply Ok_inj in Hfn.
  - rewrite Hl in Hl0. apply (inj Some) in Hl0.
    apply bin_op_expr_inj in Hl0 as (<- & <- & <- & <- & <- & <- & Hfn).
    exists a, b, trl, trr. repeat split; [done..| |by right].
    specialize (Hfn (Dyn A a) (Dyn B b)). rewrite !apply_fn_Dyn in Hfn.
    by apply Ok_inj in Hfn.
Qed.

(** C9, as stated, fails.  Claimed: [bin_op_expr::eval] evaluates the left
    operand strictly before the right one.  The two calls are arguments of
    the call of [fn], an order C++ leaves open: on the sample store [2 + 3]
    has a run that enters the right operand (address 2) before the left one
    (address 1). *)
Lemma bin_op_expr_eval_right_operand_first :
  ¬ left_before_right Samples.h_sum 3%positive.
Proof.
  intros H.
  destruct (H [3; 2; 1]%positive (Dyn TInt 5%Z))
    as (T & A & B & fn & name & pl & pr & trl & trr & x & y & Hl & Hrl & Hrr & Htr).
  { apply (ER_bin_right_first Samples.h_sum 3%positive TInt TInt TInt
             Driver.plus "+" (Some 1%positive) (Some 2%positive)
             [1%positive] [2%positive] 2%Z 3%Z).
    - reflexivity.
    - by constructor.
    - by constructor. }
  change (Some (bin_op_expr TInt TInt TInt Driver.plus "+"
                  (Some 1%positive) (Some 2%positive)) =
          Some (bin_op_expr T A B fn name pl pr)) in Hl.
  apply (inj Some), bin_op_expr_inj in Hl as (_ & _ & _ & _ & <- & <- & _).
  apply (eval_rel_const_inv _ _ TInt 2%Z) in Hrl; [|reflexivity].
  subst trl. discriminate Htr.
Qed.

(** C9, amended.  Every completed run of [bin_op_expr::eval] contains a whole
    run of the left operand and a whole run of the right operand, one after
    the other in one of the two orders, and returns [fn] applied to the two
    results; no operand is skipped.  Which of the two orders a run takes is
    not fixed.  ([fn] is a function of the two values here: what a callable
    with effects of its own would see of the order is not part of the
    statement.) *)
Theorem bin_op_expr_eval_both_operands (h : heap) (l : loc) (T A B : ty)
    (fn : tyD A → tyD B → tyD T) (name : string) (pl pr : ptr)
    (tr : list loc) (v : value) :
  h !! l = Some (bin_op_expr T A B fn name pl pr) →
  eval_rel h (Some l) tr v →
  ∃ a b trl trr,
    eval_rel h pl trl (Dyn A a) ∧ eval_rel h pr trr (Dyn B b) ∧
    v = Dyn T (fn a b) ∧
    (tr = l :: trl ++ trr ∨ tr = l :: trr ++ trl).
Proof. apply eval_rel_bin_op_inv. Qed.

Lemma bin_op_expr_eval_both_operands_witness :
  ∃ a b trl trr,
    eval_rel Samples.h_sum (Some 1%positive) trl (Dyn TInt a) ∧
    eval_rel Samples.h_sum (Some 2%positive) trr (Dyn TInt b) ∧
    Dyn TInt 5%Z = Dyn TInt (Driver.plus a b) ∧
    ([3; 2; 1]%positive = 3%positive :: trl ++ trr ∨
     [3; 2; 1]%positive = 3%positive :: trr ++ trl).
Proof.
  apply (bin_op_expr_eval_both_operands Samples.h_sum 3%positive TInt TInt TInt
           Driver.plus "+" (Some 1%positive) (Some 2%positive)).
  - reflexivity.
  - apply (ER_bin_right_first Samples.h_sum 3%positive TInt TInt TInt
             Driver.plus "+" (Some 1%positive) (Some 2%positive)
             [1%positive] [2%positive] 2%Z 3%Z).
    + reflexivity.
    + apply ER_const. reflexivity.
    + apply ER_const. reflexivity.
Defined.

(** ** Copies of a conditional *)

Lemma clone_if_expr_shares (fuel : nat) (h : heap) (l : loc) (T : ty) (c t f : ptr) :
  h !! l = Some (if_expr T c t f) →
  clone (S fuel) h (Some l) = Ok (alloc h (if_expr T c t f)).
Proof.
  intros Hl. simpl. rewrite Hl. simpl. by apply if_expr_copy_ctor_shares.
Qed.

(** C3.  Claimed: copying or cloning a conditional node gives a node with
    its own deep copies of the three subtrees, so that destroying the copy
    leaves the original intact.  On the sample store, [clone] (and the copy
    constructor it calls) returns a node at address 7 holding the same three
    pointers as the original at address 6.  Deleting the clone deletes the
    original's condition and branches: evaluating the original then reads a
    deleted node, and deleting the original deletes them a second time. *)
Theorem if_expr_clone_shares_children :
  let original := if_expr TString (Some 3%positive) (Some 4%positive) (Some 5%positive) in
  let h' := <[7%positive := original]> Samples.h_if in
  let h'' := <[6%positive := original]> ∅ in
  Samples.h_if !! 6%positive = Some original ∧
  if_expr_copy_ctor Samples.h_if 6%positive = Ok (h', 7%positive) ∧
  clone 1 Samples.h_if (Some 6%positive) = Ok (h', 7%positive) ∧
  delete_expr 3 h' (Some 7%positive) = Ok h'' ∧
  eval 2 h'' (Some 6%positive) = Fault UseAfterFree ∧
  delete_expr 3 h'' (Some 6%positive) = Fault DoubleFree.
Proof. repeat split; vm_compute; reflexivity. Qed.


(** C5.  Claimed: a moved-from conditional node has all three pointers null,
    so that destroying it destroys nothing further.  On the sample stores,
    the move constructor and the move assignment null the two branch pointers
    of the source and leave its [cond] pointing at the condition it has just
    handed over.  Destroying the moved-from node deletes that condition
    (addresses 1 to 3), and destroying the node moved to deletes it again. *)
Theorem if_expr_move_keeps_source_cond :
  let moved_from := if_expr TString (Some 3%positive) None None in
  let moved_to := if_expr TString (Some 3%positive) (Some 4%positive) (Some 5%positive) in
  let h1 := <[7%positive := moved_to]> (<[6%positive := moved_from]> Samples.h_if) in
  let h2 := <[10%positive := moved_to]>
            (<[6%positive := moved_from]>
             (delete 8%positive (delete 9%positive Samples.h_pair))) in
  if_expr_move_ctor Samples.h_if 6%positive = Ok (h1, 7%positive) ∧
  (h ← delete_expr 3 h1 (Some 6%positive); Ok (dom h))
    = Ok ({[4%positive; 5%positive; 7%positive]} : gset loc) ∧
  (h ← delete_expr 3 h1 (Some 6%positive); delete_expr 3 h (Some 7%positive))
    = Fault DoubleFree ∧
  if_expr_move_assign 2 Samples.h_pair 10%positive 6%positive = Ok h2 ∧
  (h ← delete_expr 3 h2 (Some 6%positive); delete_expr 3 h (Some 10%positive))
    = Fault DoubleFree.
Proof. repeat split; vm_compute; reflexivity. Qed.

(** ** Destruction only removes nodes *)

Lemma free_subseteq (h h' : heap) (l : loc) : free h l = Ok h' → h' ⊆ h.
Proof.
  unfold free. destruct (h !! l); [|discriminate].
  intros [= <-]. apply delete_subseteq.
Qed.

Lemma delete_expr_subseteq (fuel : nat) (h h' : heap) (p : ptr) :
  delete_expr fuel h p = Ok h' → h' ⊆ h.
Proof.
  revert h h' p. induction fuel as [|n IH]; intros h h' p Hd; [discriminate|].
  simpl in Hd. destruct p as [l|]; [|by injection Hd as <-].
  destruct (h !! l) as [[T val|T A B fn name pl pr|T c pt pf]|] eqn:Hl;
    [| | |discriminate].
  - by eapply free_subseteq.
  - inv_bind Hd. inv_bind Hd.
    apply IH in Hx, Hx0. apply free_subseteq in Hd.
    by do 2 (etrans; [eassumption|]).
  - inv_bind Hd. inv_bind Hd. inv_bind Hd.
    apply IH in Hx, Hx0, Hx1. apply free_subseteq in Hd.
    by do 3 (etrans; [eassumption|]).
Qed.

Lemma store_Ok (h h' : heap) (l : loc) (n : node) :
  store h l n = Ok h' → is_Some (h !! l) ∧ h' = <[l := n]> h.
Proof.
  unfold store. destruct (h !! l) eqn:Hl; [|discriminate].
  intros [= <-]. eauto.
Qed.

(** ** The source of a move *)

(** The move constructor always returns on a conditional: the new node holds
    the three pointers, the source keeps [cond] and has null branches. *)
Lemma if_expr_move_ctor_spec (h : heap) (o : loc) (T : ty) (c t f : ptr) :
  h !! o = Some (if_expr T c t f) →
  ∃ h' this,
    if_expr_move_ctor h o = Ok (h', this) ∧
    h !! this = None ∧
    h' !! this = Some (if_expr T c t f) ∧
    h' !! o = Some (if_expr T c None None).
Proof.
  intros Ho.
  pose proof (alloc_fresh h (if_expr T c t f)) as Hfresh. unfold alloc in Hfresh.
  simpl in Hfresh.
  assert (fresh (dom h) ≠ o) as Hne by congruence.
  unfold if_expr_move_ctor. apply load_if_Ok in Ho as Hload. rewrite Hload.
  simpl. unfold alloc, store. rewrite lookup_insert_ne by done. rewrite Ho. simpl.
  eexists _, _. split; [reflexivity|]. split; [exact Hfresh|]. split.
  - rewrite lookup_insert_ne by done. apply lookup_insert_eq.
  - apply lookup_insert_eq.
Qed.

(** After a completed move assignment the right-hand side keeps its
    condition pointer and has null branches. *)
Lemma if_expr_move_assign_source (fuel : nat) (h h' : heap) (this o : loc)
    (T : ty) (c t f : ptr) :
  this ≠ o →
  h !! o = Some (if_expr T c t f) →
  if_expr_move_assign fuel h this o = Ok h' →
  h' !! o = Some (if_expr T c None None).
Proof.
  intros Hne Ho Ha. unfold if_expr_move_assign in Ha.
  destruct (decide (o = this)) as [->|_]; [done|].
  inv_bind Ha. destruct x as [[[T0 c0] t0] f0].
  inv_bind Ha. inv_bind Ha. inv_bind Ha.
  destruct x1 as [[[U oc] ot] ofl]. inv_bind Ha.
  apply load_if_Ok in Hx2.
  apply delete_expr_subseteq in Hx0, Hx1.
  assert (x0 ⊆ h) as Hsub by (by etrans).
  pose proof (lookup_weaken _ _ _ _ Hx2 Hsub) as Ho'.
  rewrite Ho in Ho'. injection Ho' as <- <- _ _.
  apply store_Ok in Ha as (_ & ->). by rewrite lookup_insert_eq.
Qed.

(** ** The statement interpreter against the move assignment *)

Lemma read_member_lookup (h : heap) (l : loc) (m : member)
    (T : ty) (c t f : ptr) :
  h !! l = Some (if_expr T c t f) →
  read_member h l m
  = Ok (match m with
        | member_cond => c
        | member_true_branch => t
        | member_false_branch => f
        end).
Proof.
  intros Hl. unfold read_member.
  by rewrite (proj2 (load_if_Ok h l T c t f) Hl).
Qed.

Lemma write_member_lookup (h : heap) (l : loc) (m : member) (p : ptr)
    (T : ty) (c t f : ptr) :
  h !! l = Some (if_expr T c t f) →
  write_member h l m p
  = Ok (<[l := match m with
               | member_cond => if_expr T p t f
               | member_true_branch => if_expr T c p f
               | member_false_branch => if_expr T c t p
               end]> h).
Proof.
  intros Hl. unfold write_member.
  rewrite (proj2 (load_if_Ok h l T c t f) Hl). simpl.
  unfold store. by rewrite Hl.
Qed.

(** The move assignment has a well-formed body, and running that body
    statement by statement gives every completed run of
    [if_expr_move_assign]. *)
Lemma move_assign_operator_runs (fuel : nat) (h h' : heap) (this o : loc) :
  if_expr_move_assign fuel h this o = Ok h' →
  ∃ assign, instantiate move_assign_operator = Some assign ∧
            assign fuel h this o = Ok h'.
Proof.
  intros Ha. eexists. split; [reflexivity|].
  cbn [exec_body op_body move_assign_operator eval_rvalue address_of].
  unfold if_expr_move_assign in Ha.
  destruct (decide (o = this)) as [->|Hne]; [done|].
  inv_bind Ha. destruct x as [[[T c] t] f].
  inv_bind Ha. inv_bind Ha. inv_bind Ha.
  destruct x1 as [[[U oc] ot] ofl]. inv_bind Ha.
  apply load_if_Ok in Hx, Hx2.
  pose proof (delete_expr_subseteq _ _ _ _ Hx0) as Hs0.
  pose proof (delete_expr_subseteq _ _ _ _ Hx1) as Hs1.
  apply store_Ok in Hx3 as ([n1 Hthis1] & ->).
  apply store_Ok in Ha as (_ & ->).
  assert (x0 !! this = Some (if_expr T c t f)) as Hthis1'.
  { pose proof (lookup_weaken _ _ _ _ Hthis1 Hs1) as H0.
    pose proof (lookup_weaken _ _ _ _ H0 Hs0) as H1.
    rewrite Hx in H1. injection H1 as <-. done. }
  assert (x !! this = Some (if_expr T c t f)) as Hthis0
    by exact (lookup_weaken _ _ _ _ Hthis1' Hs1).
  clear n1 Hthis1.
  rewrite (read_member_lookup _ _ _ _ _ _ _ Hx). simpl. rewrite Hx0. simpl.
  rewrite (read_member_lookup _ _ _ _ _ _ _ Hthis0). simpl.
  rewrite Hx1. simpl.
  repeat
    (first
       [ erewrite read_member_lookup by (by simplify_map_eq)
       | erewrite write_member_lookup by (by simplify_map_eq) ];
     simpl).
  f_equal. apply map_eq. intros i.
  destruct (decide (i = o)) as [->|]; [by simplify_map_eq|].
  destruct (decide (i = this)) as [->|]; by simplify_map_eq.
Qed.

(** C10, as stated, fails in one detail.  Claimed: a conditional that has
    been copy-assigned from is, next to a moved-from one, a node with null
    branch pointers whose condition test still selects the true branch.  No
    conditional is ever copy-assigned from: the copy assignment operator
    cannot be instantiated, so on the sample store, as on any other, no copy
    assignment completes. *)
Lemma if_expr_copy_assigned_from_unreachable :
  ¬ ∃ assign h',
      if_expr_copy_assign = Some assign ∧
      assign 2 Samples.h_pair 10%positive 6%positive = Ok h'.
Proof. intros (assign & h' & Ha & _). discriminate Ha. Qed.

(** C10, amended.  [if_expr::eval] dereferences the selected branch pointer
    without a null test, and [~if_expr] deletes the three pointers without
    one.  For a conditional whose three pointers are not null, [eval]
    goes to the true branch, which is there to be dereferenced.  The public
    interface breaks that precondition by moving.  The move constructor
    returns and leaves its source with [cond] set and both branches null,
    and so does every completed move assignment from the node: evaluating
    the source selects the true branch and dereferences null.  Destroying
    such a node deletes its condition and nothing else, deleting a null
    pointer does nothing. *)
Theorem if_expr_null_branch_reachable (h : heap) (l : loc) (T : ty) (c t f : loc) :
  h !! l = Some (if_expr T (Some c) (Some t) (Some f)) →
  (∀ fuel, eval (S fuel) h (Some l) = eval fuel h (Some t)) ∧
  (∃ h' this,
     if_expr_move_ctor h l = Ok (h', this) ∧
     h' !! l = Some (if_expr T (Some c) None None) ∧
     ∀ fuel, eval (S (S fuel)) h' (Some l) = Fault NullDeref) ∧
  (∀ fuel h' this,
     this ≠ l →
     if_expr_move_assign fuel h this l = Ok h' →
     h' !! l = Some (if_expr T (Some c) None None) ∧
     ∀ fuel', eval (S (S fuel')) h' (Some l) = Fault NullDeref) ∧
  (∀ fuel h',
     h' !! l = Some (if_expr T (Some c) None None) →
     delete_expr (S (S fuel)) h' (Some l)
     = (h1 ← delete_expr (S fuel) h' (Some c); free h1 l)).
Proof.
  intros Hl. split; [|split; [|split]].
  - intros fuel. by eapply eval_if_expr_cond_present.
  - destruct (if_expr_move_ctor_spec _ _ _ _ _ _ Hl) as (h' & this & Hm & _ & _ & Hl').
    exists h', this. split; [done|]. split; [done|].
    intros fuel. by rewrite (eval_if_expr_cond_present _ _ _ _ _ _ _ Hl').
  - intros fuel h' this Hne Ha.
    pose proof (if_expr_move_assign_source _ _ _ _ _ _ _ _ _ Hne Hl Ha) as Hl'.
    split; [done|].
    intros fuel'. by rewrite (eval_if_expr_cond_present _ _ _ _ _ _ _ Hl').
  - intros fuel h' Hl'.
    remember (S fuel) as k eqn:Hk. simpl. rewrite Hl'.
    destruct (delete_expr k h' (Some c)) as [h1|e]; [|done].
    simpl. subst k. done.
Qed.

Lemma if_expr_null_branch_reachable_witness :
  (∀ fuel, eval (S fuel) Samples.h_pair (Some 6%positive)
           = eval fuel Samples.h_pair (Some 4%positive)) ∧
  (∃ h' this,
     if_expr_move_ctor Samples.h_pair 6%positive = Ok (h', this) ∧
     h' !! 6%positive = Some (if_expr TString (Some 3%positive) None None) ∧
     ∀ fuel, eval (S (S fuel)) h' (Some 6%positive) = Fault NullDeref) ∧
  (∀ fuel h' this,
     this ≠ 6%positive →
     if_expr_move_assign fuel Samples.h_pair this 6%positive = Ok h' →
     h' !! 6%positive = Some (if_expr TString (Some 3%positive) None None) ∧
     ∀ fuel', eval (S (S fuel')) h' (Some 6%positive) = Fault NullDeref) ∧
  (∀ fuel h',
     h' !! 6%positive = Some (if_expr TString (Some 3%positive) None None) →
     delete_expr (S (S fuel)) h' (Some 6%positive)
     = (h1 ← delete_expr (S fuel) h' (Some 3%positive); free h1 6%positive)).
Proof.
  apply (if_expr_null_branch_reachable Samples.h_pair 6%positive TString
           3%positive 4%positive 5%positive).
  reflexivity.
Defined.

(** ** The driver's trees *)

(** What [main] writes and leaves behind: every node is deleted once. *)
Lemma main_output :
  Driver.main 4 =
    Ok ("2 = 2" +:+ Driver.endl +:+
        "((2 + 2) == 4) = true" +:+ Driver.endl +:+
        "true" +:+ Driver.endl +:+ " = correct" +:+ Driver.endl +:+
        "((8 * 5) == 40)" +:+ Driver.endl +:+ " = 0" +:+ Driver.endl +:+
        "true" +:+ Driver.endl +:+ " = correct" +:+ Driver.endl,
        ∅).
Proof. vm_compute. reflexivity. Qed.

(** C8.  Claimed: the tree comparing [8 * 5] with [40], as built in the
    driver, evaluates to true, and the conditional wrapping it evaluates to
    ["correct"].  In the driver [mult] is declared to return [bool]: the
    product 40 becomes [true], the operator node of result type [int] turns
    that into 1, and [1 == 40] is false.  Built on any store, [my_expr]
    evaluates to [false]; [my_expr_two] still evaluates to ["correct"],
    because the conditional tests that its condition pointer is set. *)
Theorem scenario3_my_expr_false (h : heap) :
  let '(h1, my_expr) := Driver.build_my_expr h in
  let '(h2, my_expr_two) := Driver.build_my_expr_two h1 my_expr in
  Driver.mult 8 5 = true ∧
  eval 3 h2 (Some my_expr) = Ok (Dyn TBool false) ∧
  eval 2 h2 (Some my_expr_two) = Ok (Dyn TString "correct").
Proof.
  unfold Driver.build_my_expr, Driver.build_my_expr_two, if_expr_ctor.
  destruct (alloc h _) as [ha eight] eqn:Ha. apply alloc_inv in Ha as (_ & Height & _).
  destruct (alloc ha _) as [hb five] eqn:Hb. apply alloc_inv in Hb as (_ & Hfive & Hab).
  destruct (alloc hb _) as [hc product] eqn:Hc. apply alloc_inv in Hc as (_ & Hproduct & Hbc).
  destruct (alloc hc _) as [hd forty] eqn:Hd. apply alloc_inv in Hd as (_ & Hforty & Hcd).
  destruct (alloc hd _) as [h1 my_expr] eqn:H1. apply alloc_inv in H1 as (_ & Hmy & Hd1).
  destruct (alloc h1 _) as [he correct] eqn:He. apply alloc_inv in He as (_ & Hcorrect & H1e).
  destruct (alloc he _) as [hf incorrect] eqn:Hf. apply alloc_inv in Hf as (_ & _ & Hef).
  destruct (alloc hf _) as [h2 my_expr_two] eqn:H2. apply alloc_inv in H2 as (_ & Htwo & Hf2).
  assert (Hprod : eval 2 hc (Some product) = Ok (Dyn TInt 1%Z)).
  { rewrite (eval_bin_op_expr _ _ _ _ _ _ _ _ _ _ Hproduct).
    rewrite (eval_const_expr _ _ _ _ _ (lookup_weaken _ _ _ _ Height (transitivity Hab Hbc))).
    by rewrite (eval_const_expr _ _ _ _ _ (lookup_weaken _ _ _ _ Hfive Hbc)). }
  split; [reflexivity|]. split.
  - apply (eval_weaken _ h1); [by do 2 (etrans; [eassumption|])|].
    rewrite (eval_bin_op_expr _ _ _ _ _ _ _ _ _ _ Hmy).
    rewrite (eval_weaken _ hc h1 _ _ (transitivity Hcd Hd1) Hprod).
    by rewrite (eval_const_expr 1 _ _ _ _ (lookup_weaken _ _ _ _ Hforty Hd1)).
  - rewrite (eval_if_expr_cond_present _ _ _ _ _ _ _ Htwo).
    apply eval_const_expr.
    eapply lookup_weaken; [exact Hcorrect|]. by etrans.
Qed.

(** * Further properties of the library *)

(** ** Destruction and the rest of the store *)

Lemma free_frame (h h' g : heap) (l : loc) :
  free h l = Ok h' → h ##ₘ g → free (h ∪ g) l = Ok (h' ∪ g).
Proof.
  unfold free. destruct (h !! l) as [n|] eqn:Hl; [|discriminate].
  intros [= <-] Hdisj. rewrite (lookup_union_Some_l _ _ _ _ Hl).
  rewrite delete_union.
  by rewrite (delete_id g) by (by eapply map_disjoint_Some_l).
Qed.

Lemma delete_expr_frame (fuel : nat) (h h' g : heap) (p : ptr) :
  delete_expr fuel h p = Ok h' → h ##ₘ g →
  delete_expr fuel (h ∪ g) p = Ok (h' ∪ g).
Proof.
  revert h h' p. induction fuel as [|n IH]; intros h h' p Hd Hdisj; [discriminate|].
  simpl in Hd |- *. destruct p as [l|]; [|by injection Hd as <-].
  destruct (h !! l) as [nd|] eqn:Hl; [|discriminate].
  rewrite (lookup_union_Some_l _ _ _ _ Hl).
  destruct nd as [T val|T A B fn name pl pr|T c pt pf].
  - by apply free_frame.
  - inv_bind Hd. inv_bind Hd.
    pose proof (delete_expr_subseteq _ _ _ _ Hx) as Hs1.
    pose proof (delete_expr_subseteq _ _ _ _ Hx0) as Hs2.
    assert (x ##ₘ g) as Hd1 by (by eapply map_disjoint_weaken_l).
    assert (x0 ##ₘ g) as Hd2 by (by eapply map_disjoint_weaken_l).
    rewrite (IH _ _ _ Hx Hdisj). simpl.
    rewrite (IH _ _ _ Hx0 Hd1). simpl.
    by apply free_frame.
  - inv_bind Hd. inv_bind Hd. inv_bind Hd.
    pose proof (delete_expr_subseteq _ _ _ _ Hx) as Hs1.
    pose proof (delete_expr_subseteq _ _ _ _ Hx0) as Hs2.
    pose proof (delete_expr_subseteq _ _ _ _ Hx1) as Hs3.
    assert (x ##ₘ g) as Hd1 by (by eapply map_disjoint_weaken_l).
    assert (x0 ##ₘ g) as Hd2 by (by eapply map_disjoint_weaken_l).
    assert (x1 ##ₘ g) as Hd3 by (by eapply map_disjoint_weaken_l).
    rewrite (IH _ _ _ Hx Hdisj). simpl.
    rewrite (IH _ _ _ Hx0 Hd1). simpl.
    rewrite (IH _ _ _ Hx1 Hd2). simpl.
    by apply free_frame.
Qed.

Lemma delete_expr_mono (fuel fuel' : nat) (h h' : heap) (p : ptr) :
  delete_expr fuel h p = Ok h' → fuel ≤ fuel' → delete_expr fuel' h p = Ok h'.
Proof.
  revert fuel' h h' p. induction fuel as [|n IH]; intros fuel' h h' p Hd Hle.
  { discriminate. }
  destruct fuel' as [|m]; [lia|]. simpl in *.
  destruct p as [l|]; [|done].
  destruct (h !! l) as [[T val|T A B fn name pl pr|T c pt pf]|]; [| | |done].
  - done.
  - inv_bind Hd. inv_bind Hd.
    rewrite (IH m _ _ _ Hx) by lia. simpl.
    rewrite (IH m _ _ _ Hx0) by lia. simpl. done.
  - inv_bind Hd. inv_bind Hd. inv_bind Hd.
    rewrite (IH m _ _ _ Hx) by lia. simpl.
    rewrite (IH m _ _ _ Hx0) by lia. simpl.
    rewrite (IH m _ _ _ Hx1) by lia. simpl. done.
Qed.

Lemma clone_mono (fuel fuel' : nat) (h h' : heap) (p : ptr) (l' : loc) :
  clone fuel h p = Ok (h', l') → fuel ≤ fuel' → clone fuel' h p = Ok (h', l').
Proof.
  revert fuel' h h' p l'. induction fuel as [|n IH]; intros fuel' h h' p l' Hc Hle.
  { discriminate. }
  destruct fuel' as [|m]; [lia|]. simpl in *.
  destruct p as [l|]; [|done].
  destruct (h !! l) as [[T val|T A B fn name pl pr|T c pt pf]|]; simpl in *;
    [| | |done].
  - done.
  - inv_bind Hc. destruct x as [h1 l1]. inv_bind Hc. destruct x as [h2 l2].
    rewrite (IH m _ _ _ _ Hx) by lia. simpl.
    rewrite (IH m _ _ _ _ Hx0) by lia. simpl. done.
  - done.
Qed.

Lemma heap_subseteq_at (h1 h2 : heap) (i : loc) :
  h1 ⊆ h2 → h1 !! i = None ∨ h1 !! i = h2 !! i.
Proof.
  intros Hsub. destruct (h1 !! i) as [n|] eqn:Hi; [right|by left].
  symmetry. by eapply lookup_weaken.
Qed.

(** Goals about stores, looked at one address at a time. *)
Ltac heap_at i :=
  repeat match goal with
  | H : _ ##ₘ _ |- _ =>
      generalize (proj1 (map_disjoint_alt _ _) H i); clear H
  | H : @subseteq (gmap _ _) _ _ _ |- _ =>
      generalize (heap_subseteq_at _ _ i H); clear H
  | H : @eq (gmap _ _) _ _ |- _ =>
      generalize (f_equal (.!! i) H); clear H
  end;
  cbv beta;
  rewrite ?lookup_union, ?lookup_insert, ?lookup_delete, ?lookup_singleton,
    ?lookup_empty;
  repeat case_decide; subst;
  repeat match goal with
  | H : ?m !! ?j = _ |- context [_ !! ?j] => revert H
  end;
  rewrite ?lookup_union, ?lookup_insert, ?lookup_delete, ?lookup_singleton,
    ?lookup_empty;
  repeat case_decide;
  repeat match goal with
  | |- context [?m !! ?j] => generalize (m !! j); intros [?|]
  end;
  unfold union, option_union, union_with, option_union_with; simpl;
  intros;
  repeat match goal with
  | H : _ ∨ _ |- _ => destruct H
  end;
  simplify_eq;
  first [done | left; done | right; done | congruence].

Ltac heap_solve :=
  let i := fresh "i" in
  first [ apply map_eq; intros i
        | apply map_disjoint_alt; intros i
        | apply map_subseteq_spec; intros i ? ];
  heap_at i.

(** What a completed [delete] removed is a store of its own, on which the
    same [delete] leaves nothing. *)
Lemma delete_expr_footprint (fuel : nat) (h h' : heap) (p : ptr) :
  delete_expr fuel h p = Ok h' →
  ∃ hd, h = hd ∪ h' ∧ hd ##ₘ h' ∧ delete_expr fuel hd p = Ok ∅.
Proof.
  revert h h' p. induction fuel as [|n IH]; intros h h' p Hd; [discriminate|].
  simpl in Hd. destruct p as [l|]; last first.
  { injection Hd as <-. exists ∅. split; [heap_solve|]. split; [heap_solve|done]. }
  destruct (h !! l) as [nd|] eqn:Hl; [|discriminate].
  assert (Hfree : ∀ h2 : heap, h2 ⊆ h → free h2 l = Ok h' →
            h2 !! l = Some nd ∧ h' = delete l h2).
  { intros h2 Hsub. unfold free.
    destruct (h2 !! l) as [nd'|] eqn:Hl2; [|discriminate].
    intros [= <-]. split; [|done].
    rewrite <- Hl. symmetry. by eapply lookup_weaken. }
  destruct nd as [T val|T A B fn name pl pr|T c pt pf].
  - apply Hfree in Hd as [_ ->]; [|done].
    exists {[l := const_expr T val]}. split; [heap_solve|]. split; [heap_solve|].
    simpl. rewrite lookup_singleton_eq. unfold free. rewrite lookup_singleton_eq.
    by rewrite delete_singleton_eq.
  - inv_bind Hd. inv_bind Hd.
    pose proof (delete_expr_subseteq _ _ _ _ Hx) as Hs1.
    pose proof (delete_expr_subseteq _ _ _ _ Hx0) as Hs2.
    apply Hfree in Hd as [Hl2 ->]; [|by etrans].
    apply IH in Hx as (hd1 & -> & Hdj1 & Hd1).
    apply IH in Hx0 as (hd2 & -> & Hdj2 & Hd2).
    clear Hs1 Hs2 Hfree IH.
    set (nd := bin_op_expr T A B fn name pl pr) in *.
    exists (hd1 ∪ (hd2 ∪ {[l := nd]})).
    split; [heap_solve|]. split; [heap_solve|].
    assert (hd1 !! l = None) as Hn1.
    { eapply map_disjoint_Some_r; [exact Hdj1|].
      by eapply lookup_union_Some_r. }
    assert (hd2 !! l = None) as Hn2 by (by eapply map_disjoint_Some_r).
    simpl. rewrite (lookup_union_r _ _ _ Hn1), (lookup_union_r _ _ _ Hn2).
    rewrite lookup_singleton_eq. unfold nd at 1.
    rewrite (delete_expr_frame _ _ _ (hd2 ∪ {[l := nd]}) _ Hd1) by heap_solve.
    simpl. rewrite (left_id_L ∅ (∪)).
    rewrite (delete_expr_frame _ _ _ {[l := nd]} _ Hd2) by heap_solve.
    simpl. rewrite (left_id_L ∅ (∪)).
    unfold free. rewrite lookup_singleton_eq. by rewrite delete_singleton_eq.
  - inv_bind Hd. inv_bind Hd. inv_bind Hd.
    pose proof (delete_expr_subseteq _ _ _ _ Hx) as Hs1.
    pose proof (delete_expr_subseteq _ _ _ _ Hx0) as Hs2.
    pose proof (delete_expr_subseteq _ _ _ _ Hx1) as Hs3.
    apply Hfree in Hd as [Hl2 ->]; [|by do 2 (etrans; [eassumption|])].
    apply IH in Hx as (hd1 & -> & Hdj1 & Hd1).
    apply IH in Hx0 as (hd2 & -> & Hdj2 & Hd2).
    apply IH in Hx1 as (hd3 & -> & Hdj3 & Hd3).
    clear Hs1 Hs2 Hs3 Hfree IH.
    set (nd := if_expr T c pt pf) in *.
    exists (hd1 ∪ (hd2 ∪ (hd3 ∪ {[l := nd]}))).
    split; [heap_solve|]. split; [heap_solve|].
    assert (hd3 !! l = None) as Hn3 by (by eapply map_disjoint_Some_r).
    assert (hd2 !! l = None) as Hn2.
    { eapply map_disjoint_Some_r; [exact Hdj2|].
      by eapply lookup_union_Some_r. }
    assert (hd1 !! l = None) as Hn1.
    { eapply map_disjoint_Some_r; [exact Hdj1|].
      eapply lookup_union_Some_r; [done|]. by eapply lookup_union_Some_r. }
    simpl. rewrite (lookup_union_r _ _ _ Hn1), (lookup_union_r _ _ _ Hn2),
      (lookup_union_r _ _ _ Hn3).
    rewrite lookup_singleton_eq. unfold nd at 1.
    rewrite (delete_expr_frame _ _ _ (hd2 ∪ (hd3 ∪ {[l := nd]})) _ Hd1) by heap_solve.
    simpl. rewrite (left_id_L ∅ (∪)).
    rewrite (delete_expr_frame _ _ _ (hd3 ∪ {[l := nd]}) _ Hd2) by heap_solve.
    simpl. rewrite (left_id_L ∅ (∪)).
    rewrite (delete_expr_frame _ _ _ {[l := nd]} _ Hd3) by heap_solve.
    simpl. rewrite (left_id_L ∅ (∪)).
    unfold free. rewrite lookup_singleton_eq. by rewrite delete_singleton_eq.
Qed.

(** ** Clones of trees without conditionals *)

Lemma plain_weaken (h h' : heap) (p : ptr) : h ⊆ h' → plain h p → plain h' p.
Proof.
  intros Hsub. induction 1 as [l T val Hl|l T A B fn name pl pr Hl _ IHl _ IHr].
  - eapply plain_const. by eapply lookup_weaken.
  - eapply plain_bin_op; [by eapply lookup_weaken|done..].
Qed.

Lemma plain_bin_op_inv (h : heap) (l : loc) (T A B : ty)
    (fn : tyD A → tyD B → tyD T) (name : string) (pl pr : ptr) :
  h !! l = Some (bin_op_expr T A B fn name pl pr) →
  plain h (Some l) → plain h pl ∧ plain h pr.
Proof.
  intros Hl Hp.
  inversion Hp as [l0 T0 v0 Hl0|l0 T0 A0 B0 fn0 name0 pl0 pr0 Hl0 Hpl Hpr]; subst.
  - congruence.
  - rewrite Hl in Hl0.
    by apply (inj Some), bin_op_expr_inj in Hl0 as (_ & _ & _ & _ & -> & -> & _).
Qed.

(** The nodes a clone of a plain tree allocates form a store of their own,
    disjoint from the store cloned in, on which deleting the clone leaves
    nothing and on which alone the clone evaluates to what the original
    evaluates to. *)
Lemma clone_owned (fuel : nat) (h h' : heap) (p : ptr) (l' : loc) :
  clone fuel h p = Ok (h', l') → plain h p →
  ∃ hc, h' = hc ∪ h ∧ hc ##ₘ h ∧ delete_expr fuel hc (Some l') = Ok ∅ ∧
        ∀ m v, eval m h p = Ok v → eval m hc (Some l') = Ok v.
Proof.
  revert h h' p l'. induction fuel as [|n IH]; intros h h' p l' Hc Hp.
  { discriminate. }
  simpl in Hc. destruct p as [l|]; [|discriminate].
  destruct (h !! l) as [nd|] eqn:Hl; [|discriminate]. simpl in Hc.
  destruct nd as [T val|T A B fn name pl pr|T c pt pf].
  - apply Ok_inj in Hc. unfold alloc in Hc. simpl in Hc. injection Hc as <- <-.
    assert (h !! fresh (dom h) = None) as Hfresh
      by apply not_elem_of_dom, is_fresh.
    exists {[fresh (dom h) := const_expr T val]}.
    split; [clear IH Hl Hp; heap_solve|]. split; [clear IH Hl Hp; heap_solve|].
    split.
    + simpl. rewrite lookup_singleton_eq. unfold free. rewrite lookup_singleton_eq.
      by rewrite delete_singleton_eq.
    + intros [|m] v He; [discriminate|].
      rewrite (eval_const_expr _ _ _ _ _ Hl) in He.
      by rewrite (eval_const_expr _ _ _ T val) by apply lookup_singleton_eq.
  - destruct (plain_bin_op_inv _ _ _ _ _ _ _ _ _ Hl Hp) as [Hpl Hpr].
    inv_bind Hc. destruct x as [h1 l1]. inv_bind Hc. destruct x as [h2 r1].
    apply IH in Hx as (hcl & -> & Hdl & Hdel_l & Hev_l); [|done].
    apply IH in Hx0 as (hcr & -> & Hdr & Hdel_r & Hev_r);
      [|eapply plain_weaken; [|done]; by apply map_union_subseteq_r].
    apply Ok_inj in Hc. unfold alloc in Hc. simpl in Hc.
    injection Hc as <- <-.
    set (top := fresh (dom (hcr ∪ (hcl ∪ h)))).
    assert ((hcr ∪ (hcl ∪ h)) !! top = None) as Hfresh
      by apply not_elem_of_dom, is_fresh.
    apply lookup_union_None in Hfresh as [Hfr Hfresh].
    apply lookup_union_None in Hfresh as [Hfl Hfh].
    set (nd := bin_op_expr T A B fn name (Some l1) (Some r1)).
    exists (hcr ∪ (hcl ∪ {[top := nd]})).
    assert (Htop : (hcr ∪ (hcl ∪ {[top := nd]})) !! top = Some nd).
    { rewrite (lookup_union_r _ _ _ Hfr), (lookup_union_r _ _ _ Hfl).
      apply lookup_singleton_eq. }
    assert (hcr ⊆ hcr ∪ (hcl ∪ {[top := nd]})) as Hsr
      by apply map_union_subseteq_l.
    assert (hcl ⊆ hcr ∪ (hcl ∪ {[top := nd]})) as Hsl.
    { clear IH Hl Hp Hpl Hpr Hdel_l Hdel_r Hev_l Hev_r Htop Hsr. heap_solve. }
    split; [clear IH Hl Hp Hpl Hpr Hdel_l Hdel_r Hev_l Hev_r Htop Hsr Hsl;
            heap_solve|].
    split; [clear IH Hl Hp Hpl Hpr Hdel_l Hdel_r Hev_l Hev_r Htop Hsr Hsl;
            heap_solve|].
    split.
    + simpl. rewrite Htop. unfold nd at 1.
      rewrite (delete_expr_frame _ _ _ (hcl ∪ {[top := nd]}) _ Hdel_r)
        by (clear IH Hl Hp Hpl Hpr Hdel_l Hdel_r Hev_l Hev_r Htop Hsr Hsl;
            heap_solve).
      simpl. rewrite (left_id_L ∅ (∪)).
      rewrite (delete_expr_frame _ _ _ {[top := nd]} _ Hdel_l)
        by (clear IH Hl Hp Hpl Hpr Hdel_l Hdel_r Hev_l Hev_r Htop Hsr Hsl;
            heap_solve).
      simpl. rewrite (left_id_L ∅ (∪)).
      unfold free. rewrite lookup_singleton_eq. by rewrite delete_singleton_eq.
    + intros [|m] v He; [discriminate|].
      rewrite (eval_bin_op_expr _ _ _ _ _ _ _ _ _ _ Hl) in He.
      inv_bind He. inv_bind He.
      rewrite (eval_bin_op_expr _ _ _ _ _ _ _ _ _ _ Htop).
      rewrite (eval_weaken _ _ _ _ _ Hsl (Hev_l _ _ Hx)). simpl.
      assert (eval m (hcl ∪ h) pr = Ok x0) as Hx0'.
      { eapply eval_weaken; [|done]. by apply map_union_subseteq_r. }
      rewrite (eval_weaken _ _ _ _ _ Hsr (Hev_r _ _ Hx0')). simpl. done.
  - inversion Hp; congruence.
Qed.

Lemma clone_then_delete (fuel : nat) (h h' : heap) (p : ptr) (l' : loc) :
  clone fuel h p = Ok (h', l') → plain h p →
  delete_expr fuel h' (Some l') = Ok h.
Proof.
  intros Hc Hp. apply clone_owned in Hc as (hc & -> & Hdisj & Hd & _); [|done].
  rewrite (delete_expr_frame _ _ _ h _ Hd Hdisj). by rewrite (left_id_L ∅ (∪)).
Qed.

Lemma clone_fresh (fuel : nat) (h h' : heap) (p : ptr) (l' : loc) :
  clone fuel h p = Ok (h', l') → h !! l' = None ∧ is_Some (h' !! l').
Proof.
  destruct fuel as [|n]; [discriminate|]. simpl.
  destruct p as [l|]; [|discriminate].
  destruct (h !! l) as [nd|] eqn:Hl; [|discriminate]. simpl.
  destruct nd as [T val|T A B fn name pl pr|T c pt pf].
  - intros (Hf & Hl' & _)%Ok_inj%alloc_inv. eauto.
  - intros Hc. inv_bind Hc. destruct x as [h1 l1]. inv_bind Hc. destruct x as [h2 r1].
    apply Ok_inj, alloc_inv in Hc as (Hf & Hl' & _).
    apply clone_subseteq in Hx, Hx0. split; [|eauto].
    assert (h ⊆ h2) as Hsub by (by etrans).
    destruct (h !! l') as [nd'|] eqn:Hl0; [|done].
    pose proof (lookup_weaken _ _ _ _ Hl0 Hsub). congruence.
  - rewrite (if_expr_copy_ctor_shares _ _ _ _ _ _ Hl).
    intros (Hf & Hl' & _)%Ok_inj%alloc_inv. eauto.
Qed.

(** ** Properties of printing, evaluation and cloning *)

(** X1.  [print] only appends: what it writes does not depend on what the
    stream already holds, and what the stream held is still there, in front
    of the new text. *)
Theorem print_only_appends (fuel : nat) (h : heap) (p : ptr) (out s : string) :
  print fuel h p out = Ok s →
  ∃ w, s = out +:+ w ∧ ∀ out', print fuel h p out' = Ok (out' +:+ w).
Proof. apply print_appends. Qed.

Lemma print_only_appends_witness :
  ∃ w, "x = (2 + 3)" = "x = " +:+ w ∧
       ∀ out', print 2 Samples.h_sum (Some 3%positive) out' = Ok (out' +:+ w).
Proof.
  apply (print_only_appends 2 Samples.h_sum (Some 3%positive) "x = " "x = (2 + 3)").
  reflexivity.
Defined.

(** X2.  Building further nodes does not disturb the trees that exist: after
    any allocation ([new] of a constant, a binary operator or a conditional)
    and after any completed [clone], every pointer evaluates and prints as
    before. *)
Theorem existing_trees_undisturbed (fuel fuel' : nat) (h : heap) (p : ptr)
    (v : value) (out s : string) :
  eval fuel h p = Ok v →
  print fuel' h p out = Ok s →
  (∀ n, eval fuel (alloc h n).1 p = Ok v ∧ print fuel' (alloc h n).1 p out = Ok s) ∧
  (∀ fc q hc lc, clone fc h q = Ok (hc, lc) →
     eval fuel hc p = Ok v ∧ print fuel' hc p out = Ok s).
Proof.
  intros He Hp. split.
  - intros n. pose proof (alloc_subseteq h n) as Hsub.
    split; [by eapply eval_weaken | by eapply print_weaken].
  - intros fc q hc lc Hsub%clone_subseteq.
    split; [by eapply eval_weaken | by eapply print_weaken].
Qed.

Lemma existing_trees_undisturbed_witness :
  (∀ n, eval 2 (alloc Samples.h_sum n).1 (Some 3%positive) = Ok (Dyn TInt 5%Z) ∧
        print 2 (alloc Samples.h_sum n).1 (Some 3%positive) "" = Ok "(2 + 3)") ∧
  (∀ fc q hc lc, clone fc Samples.h_sum q = Ok (hc, lc) →
     eval 2 hc (Some 3%positive) = Ok (Dyn TInt 5%Z) ∧
     print 2 hc (Some 3%positive) "" = Ok "(2 + 3)").
Proof.
  apply (existing_trees_undisturbed 2 2 Samples.h_sum (Some 3%positive)
           (Dyn TInt 5%Z) "" "(2 + 3)").
  - reflexivity.
  - reflexivity.
Defined.

(** X4.  [clone] only allocates: every node of the store is still there
    unchanged, and the node returned is at an address that was not in use. *)
Theorem clone_only_allocates (fuel : nat) (h h' : heap) (p : ptr) (l' : loc) :
  clone fuel h p = Ok (h', l') →
  h ⊆ h' ∧ h !! l' = None ∧ is_Some (h' !! l').
Proof.
  intros Hc. split; [by eapply clone_subseteq|]. by eapply clone_fresh.
Qed.

Lemma clone_only_allocates_witness :
  Samples.h_if ⊆ <[7%positive := if_expr TString (Some 3%positive)
                                  (Some 4%positive) (Some 5%positive)]> Samples.h_if ∧
  Samples.h_if !! 7%positive = None ∧
  is_Some (<[7%positive := if_expr TString (Some 3%positive)
                             (Some 4%positive) (Some 5%positive)]> Samples.h_if
           !! 7%positive).
Proof.
  apply (clone_only_allocates 1 Samples.h_if _ (Some 6%positive) 7%positive).
  vm_compute. reflexivity.
Defined.

Lemma delete_expr_root_gone (fuel : nat) (h h' : heap) (l : loc) :
  delete_expr fuel h (Some l) = Ok h' → h' !! l = None.
Proof.
  intros Hd. destruct fuel as [|n]; [discriminate|]. simpl in Hd.
  assert (Hfree : ∀ hk, free hk l = Ok h' → h' !! l = None).
  { intros hk. unfold free. destruct (hk !! l); [|discriminate].
    intros [= <-]. apply lookup_delete_eq. }
  destruct (h !! l) as [[T val|T A B fn name pl pr|T c pt pf]|]; [| | |discriminate].
  - by eapply Hfree.
  - inv_bind Hd. inv_bind Hd. by eapply Hfree.
  - inv_bind Hd. inv_bind Hd. inv_bind Hd. by eapply Hfree.
Qed.

(** X5.  Destruction only removes: after a completed [delete p] the node
    [p] pointed at is gone and every node still in the store is as it
    was. *)
Theorem delete_expr_only_removes (fuel : nat) (h h' : heap) (l : loc) :
  delete_expr fuel h (Some l) = Ok h' →
  h' ⊆ h ∧ h' !! l = None.
Proof.
  intros Hd. split; [by eapply delete_expr_subseteq | by eapply delete_expr_root_gone].
Qed.

Lemma delete_expr_only_removes_witness :
  (∅ : heap) ⊆ Samples.h_sum ∧ (∅ : heap) !! 3%positive = None.
Proof.
  apply (delete_expr_only_removes 2 Samples.h_sum ∅ 3%positive).
  reflexivity.
Defined.

(** X6.  Destruction does not touch the rest of the store: a [delete] that
    completes on a store completes on any larger store, and leaves the
    additional nodes exactly as they were. *)
Theorem delete_expr_leaves_rest (fuel : nat) (h h' g : heap) (p : ptr) :
  delete_expr fuel h p = Ok h' → h ##ₘ g →
  delete_expr fuel (h ∪ g) p = Ok (h' ∪ g).
Proof. apply delete_expr_frame. Qed.

Lemma delete_expr_leaves_rest_witness :
  delete_expr 2 (Samples.h_sum ∪ MoreSamples.h_one) (Some 3%positive)
  = Ok (∅ ∪ MoreSamples.h_one).
Proof.
  apply (delete_expr_leaves_rest 2 Samples.h_sum ∅ MoreSamples.h_one (Some 3%positive)).
  - reflexivity.
  - apply map_disjoint_singleton_r_2. reflexivity.
Defined.

(** X7.  A completed [delete] read no node that it did not delete: the nodes
    it removed form a store of their own, disjoint from what is left, and on
    that store alone the same [delete] completes and leaves nothing. *)
Theorem delete_expr_needs_only_its_tree (fuel : nat) (h h' : heap) (p : ptr) :
  delete_expr fuel h p = Ok h' →
  ∃ hd, h = hd ∪ h' ∧ hd ##ₘ h' ∧ delete_expr fuel hd p = Ok ∅.
Proof. apply delete_expr_footprint. Qed.

Lemma delete_expr_needs_only_its_tree_witness :
  ∃ hd, Samples.h_if = hd ∪ <[6%positive := if_expr TString (Some 3%positive)
                                (Some 4%positive) (Some 5%positive)]>
                             (<[5%positive := const_expr TString "no"]>
                              (<[4%positive := const_expr TString "yes"]> ∅)) ∧
        hd ##ₘ <[6%positive := if_expr TString (Some 3%positive)
                   (Some 4%positive) (Some 5%positive)]>
                (<[5%positive := const_expr TString "no"]>
                 (<[4%positive := const_expr TString "yes"]> ∅)) ∧
        delete_expr 2 hd (Some 3%positive) = Ok ∅.
Proof.
  apply (delete_expr_needs_only_its_tree 2 Samples.h_if _ (Some 3%positive)).
  vm_compute. reflexivity.
Defined.

(** X8.  For a tree of constants and binary operators [clone] is a deep
    copy: deleting the clone gives back exactly the store there was before
    the clone, so no node of the original is shared with it. *)
Theorem clone_delete_round_trip (fuel : nat) (h h' : heap) (p : ptr) (l' : loc) :
  clone fuel h p = Ok (h', l') → plain h p →
  delete_expr fuel h' (Some l') = Ok h.
Proof. apply clone_then_delete. Qed.

Lemma clone_delete_round_trip_witness :
  delete_expr 2
    (<[6%positive := bin_op_expr TInt TInt TInt Driver.plus "+"
                       (Some 4%positive) (Some 5%positive)]>
     (<[5%positive := const_expr TInt 3%Z]>
      (<[4%positive := const_expr TInt 2%Z]> Samples.h_sum)))
    (Some 6%positive)
  = Ok Samples.h_sum.
Proof.
  apply (clone_delete_round_trip 2 Samples.h_sum _ (Some 3%positive) 6%positive).
  - reflexivity.
  - apply (plain_bin_op Samples.h_sum 3%positive TInt TInt TInt Driver.plus "+"
             (Some 1%positive) (Some 2%positive)).
    + reflexivity.
    + apply (plain_const Samples.h_sum 1%positive TInt 2%Z). reflexivity.
    + apply (plain_const Samples.h_sum 2%positive TInt 3%Z). reflexivity.
Defined.

(** ** The driver's wrapper functions *)

Lemma int_wrap_in_range (z : Z) :
  (- 2 ^ 31 ≤ z < 2 ^ 31)%Z → Driver.int_wrap z = z.
Proof.
  intros Hz. unfold Driver.int_wrap.
  rewrite Z.mod_small by lia. lia.
Qed.

(** X9.  [plus] is addition whenever the sum fits an [int]. *)
Theorem plus_in_range (a b : Z) :
  (- 2 ^ 31 ≤ a + b < 2 ^ 31)%Z → Driver.plus a b = (a + b)%Z.
Proof. apply int_wrap_in_range. Qed.

Lemma plus_in_range_witness : Driver.plus 2 2 = 4%Z.
Proof. apply (plus_in_range 2 2). lia. Defined.

(** X10.  [mult] does not return the product: because its return type is
    [bool], it tells whether both factors are non-zero, and as the function
    of an [int] operator node it yields 1 in that case and 0 otherwise
    (whenever the product fits an [int]). *)
Theorem mult_is_both_nonzero (a b : Z) :
  (- 2 ^ 31 ≤ a * b < 2 ^ 31)%Z →
  (Driver.mult a b = true ↔ a ≠ 0%Z ∧ b ≠ 0%Z) ∧
  Driver.bool_to_int (Driver.mult a b)
  = (if decide (a = 0 ∨ b = 0)%Z then 0 else 1)%Z.
Proof.
  intros Hr. unfold Driver.mult, Driver.int_to_bool.
  rewrite (int_wrap_in_range _ Hr).
  destruct (Z.eqb_spec (a * b) 0) as [H0|H0]; simpl.
  - apply Z.mul_eq_0 in H0. split; [split; [done|tauto]|].
    by rewrite decide_True.
  - split; [split; [lia|done]|].
    rewrite decide_False; [done|]. lia.
Qed.

Lemma mult_is_both_nonzero_witness :
  (Driver.mult 8 5 = true ↔ 8%Z ≠ 0%Z ∧ 5%Z ≠ 0%Z) ∧
  Driver.bool_to_int (Driver.mult 8 5)
  = (if decide (8 = 0 ∨ 5 = 0)%Z then 0 else 1)%Z.
Proof. apply (mult_is_both_nonzero 8 5). lia. Defined.

(** X11.  [sub] does not return the difference: because its return type is
    [bool], it is the test for inequality, the negation of [equals]
    (whenever the difference fits an [int]). *)
Theorem sub_is_unequal (a b : Z) :
  (- 2 ^ 31 ≤ a - b < 2 ^ 31)%Z →
  Driver.sub a b = negb (Driver.equals a b).
Proof.
  intros Hr. unfold Driver.sub, Driver.equals, Driver.int_to_bool.
  rewrite (int_wrap_in_range _ Hr). f_equal.
  destruct (Z.eqb_spec (a - b) 0), (Z.eqb_spec a b); (done || lia).
Qed.

Lemma sub_is_unequal_witness :
  Driver.sub 7 3 = negb (Driver.equals 7 3).
Proof. apply (sub_is_unequal 7 3). lia. Defined.

(** ** What the conditional's assignments leave in the two nodes *)

Lemma if_expr_assign_tail (h h' : heap) (this o : loc) (T U : ty)
    (c t f c' t' f' : ptr) :
  this ≠ o →
  (h1 ← store h this (if_expr T c t f); store h1 o (if_expr U c' t' f')) = Ok h' →
  h' !! this = Some (if_expr T c t f) ∧ h' !! o = Some (if_expr U c' t' f').
Proof.
  intros Hne Hs. inv_bind Hs.
  apply store_Ok in Hx as (_ & ->). apply store_Ok in Hs as (_ & ->).
  split; [by rewrite lookup_insert_ne, lookup_insert_eq | by rewrite lookup_insert_eq].
Qed.

(** X13.  After a completed move assignment between two distinct
    conditionals both nodes hold the same condition pointer: the left-hand
    side holds the three pointers of the right-hand side, and the right-hand
    side keeps its [cond] and has null branches. *)
Theorem if_expr_move_assign_shares_cond (fuel : nat) (h h' : heap) (this o : loc)
    (T : ty) (c t f : ptr) :
  this ≠ o →
  h !! o = Some (if_expr T c t f) →
  if_expr_move_assign fuel h this o = Ok h' →
  (∃ T0, h' !! this = Some (if_expr T0 c t f)) ∧
  h' !! o = Some (if_expr T c None None).
Proof.
  intros Hne Ho Ha. unfold if_expr_move_assign in Ha.
  destruct (decide (o = this)) as [->|_]; [done|].
  inv_bind Ha. destruct x as [[[T0 c0] t0] f0].
  inv_bind Ha. inv_bind Ha. inv_bind Ha.
  destruct x1 as [[[U oc] ot] ofl].
  apply load_if_Ok in Hx2.
  apply delete_expr_subseteq in Hx0, Hx1.
  assert (x0 ⊆ h) as Hsub by (by etrans).
  pose proof (lookup_weaken _ _ _ _ Hx2 Hsub) as Ho'.
  rewrite Ho in Ho'. apply (inj Some) in Ho'.
  assert (U = T ∧ oc = c ∧ ot = t ∧ ofl = f) as (-> & -> & -> & ->)
    by (by injection Ho' as -> -> -> ->).
  apply if_expr_assign_tail in Ha as [Hthis Hsrc]; [|done]. eauto.
Qed.

Lemma if_expr_move_assign_shares_cond_witness :
  (∃ T0, (<[10%positive := if_expr TString (Some 3%positive) (Some 4%positive)
                             (Some 5%positive)]>
          (<[6%positive := if_expr TString (Some 3%positive) None None]>
           (delete 8%positive (delete 9%positive Samples.h_pair))))
         !! 10%positive
         = Some (if_expr T0 (Some 3%positive) (Some 4%positive) (Some 5%positive))) ∧
  (<[10%positive := if_expr TString (Some 3%positive) (Some 4%positive)
                      (Some 5%positive)]>
   (<[6%positive := if_expr TString (Some 3%positive) None None]>
    (delete 8%positive (delete 9%positive Samples.h_pair))))
  !! 6%positive = Some (if_expr TString (Some 3%positive) None None).
Proof.
  apply (if_expr_move_assign_shares_cond 2 Samples.h_pair _ 10%positive 6%positive
           TString (Some 3%positive) (Some 4%positive) (Some 5%positive)).
  - done.
  - reflexivity.
  - vm_compute. reflexivity.
Defined.

(** ** Parents own their children *)

Lemma free_fresh_insert (g : heap) (l : loc) (nd : node) :
  g !! l = None → free (<[l := nd]> g) l = Ok g.
Proof.
  intros Hl. unfold free. rewrite lookup_insert_eq.
  by rewrite delete_insert_eq, delete_id.
Qed.

(** X14.  Destroying a conditional destroys each of its three subtrees once:
    if the condition and the two branches handed to the constructor are
    each the root of a tree of their own, deleting the constructed node
    completes and removes exactly the node and the three trees, leaving the
    rest of the store as it was. *)
Theorem if_expr_owns_children (fuel : nat) (hc ht hf g : heap) (T : ty)
    (c t f : ptr) :
  delete_expr fuel hc c = Ok ∅ →
  delete_expr fuel ht t = Ok ∅ →
  delete_expr fuel hf f = Ok ∅ →
  hc ##ₘ ht → hc ∪ ht ##ₘ hf → hc ∪ ht ∪ hf ##ₘ g →
  let '(h', l) := if_expr_ctor (hc ∪ ht ∪ hf ∪ g) T c t f in
  delete_expr (S fuel) h' (Some l) = Ok g.
Proof.
  intros Hc Ht Hf Hct Hcf Hg. unfold if_expr_ctor, alloc.
  set (l := fresh (dom (hc ∪ ht ∪ hf ∪ g))).
  assert ((hc ∪ ht ∪ hf ∪ g) !! l = None) as Hfresh
    by apply not_elem_of_dom, is_fresh.
  set (nd := if_expr T c t f).
  simpl. rewrite lookup_insert_eq. unfold nd at 1.
  assert (<[l := nd]> (hc ∪ ht ∪ hf ∪ g) = hc ∪ (ht ∪ (hf ∪ <[l := nd]> g))) as ->.
  { clear Hc Ht Hf. heap_solve. }
  rewrite (delete_expr_frame _ _ _ _ _ Hc) by (clear Hc Ht Hf; heap_solve).
  simpl. rewrite (left_id_L ∅ (∪)).
  rewrite (delete_expr_frame _ _ _ _ _ Ht) by (clear Hc Ht Hf; heap_solve).
  simpl. rewrite (left_id_L ∅ (∪)).
  rewrite (delete_expr_frame _ _ _ _ _ Hf) by (clear Hc Ht Hf; heap_solve).
  simpl. rewrite (left_id_L ∅ (∪)).
  apply free_fresh_insert.
  by repeat (apply lookup_union_None in Hfresh as [Hfresh ?]).
Qed.

(** X15.  Destroying a binary operator destroys each of its two operand
    trees once: if the operands handed to the constructor are each the root
    of a tree of their own, deleting the constructed node completes and
    removes exactly the node and the two trees. *)
Theorem bin_op_expr_owns_operands (fuel : nat) (hl hr g : heap) (T A B : ty)
    (fn : tyD A → tyD B → tyD T) (name : string) (l r : ptr) :
  delete_expr fuel hl l = Ok ∅ →
  delete_expr fuel hr r = Ok ∅ →
  hl ##ₘ hr → hl ∪ hr ##ₘ g →
  let '(h', this) := bin_op_expr_ctor (hl ∪ hr ∪ g) T A B fn name l r in
  delete_expr (S fuel) h' (Some this) = Ok g.
Proof.
  intros Hl Hr Hlr Hg. unfold bin_op_expr_ctor, alloc.
  set (this := fresh (dom (hl ∪ hr ∪ g))).
  assert ((hl ∪ hr ∪ g) !! this = None) as Hfresh
    by apply not_elem_of_dom, is_fresh.
  set (nd := bin_op_expr T A B fn name l r).
  simpl. rewrite lookup_insert_eq. unfold nd at 1.
  assert (<[this := nd]> (hl ∪ hr ∪ g) = hr ∪ (hl ∪ <[this := nd]> g)) as ->.
  { clear Hl Hr. heap_solve. }
  rewrite (delete_expr_frame _ _ _ _ _ Hr) by (clear Hl Hr; heap_solve).
  simpl. rewrite (left_id_L ∅ (∪)).
  rewrite (delete_expr_frame _ _ _ _ _ Hl) by (clear Hl Hr; heap_solve).
  simpl. rewrite (left_id_L ∅ (∪)).
  apply free_fresh_insert.
  by repeat (apply lookup_union_None in Hfresh as [Hfresh ?]).
Qed.

Lemma if_expr_owns_children_witness :
  let '(h', l) :=
    if_expr_ctor (MoreSamples.h_c ∪ MoreSamples.h_t ∪ MoreSamples.h_f
                  ∪ MoreSamples.h_one)
      TString (Some 1%positive) (Some 2%positive) (Some 3%positive) in
  delete_expr 2 h' (Some l) = Ok MoreSamples.h_one.
Proof.
  apply (if_expr_owns_children 1 MoreSamples.h_c MoreSamples.h_t MoreSamples.h_f
           MoreSamples.h_one TString
           (Some 1%positive) (Some 2%positive) (Some 3%positive)).
  - reflexivity.
  - reflexivity.
  - reflexivity.
  - apply map_disjoint_singleton_l_2. reflexivity.
  - apply map_disjoint_singleton_r_2. reflexivity.
  - apply map_disjoint_singleton_r_2. reflexivity.
Defined.

Lemma bin_op_expr_owns_operands_witness :
  let '(h', this) :=
    bin_op_expr_ctor (MoreSamples.h_t ∪ MoreSamples.h_f ∪ MoreSamples.h_one)
      TBool TString TString String.eqb "==" (Some 2%positive) (Some 3%positive) in
  delete_expr 2 h' (Some this) = Ok MoreSamples.h_one.
Proof.
  apply (bin_op_expr_owns_operands 1 MoreSamples.h_t MoreSamples.h_f
           MoreSamples.h_one TBool TString TString String.eqb "=="
           (Some 2%positive) (Some 3%positive)).
  - reflexivity.
  - reflexivity.
  - apply map_disjoint_singleton_l_2. reflexivity.
  - apply map_disjoint_singleton_r_2. reflexivity.
Defined.

(** ** Evaluation after a node has been overwritten *)

(** An evaluation that completes never comes back to a node it is still
    evaluating, so it goes through with that node replaced, and with nodes
    added where there were none. *)
Lemma eval_change_unvisited (m : nat) (h h2 : heap) (o : loc) (p : ptr) (w : value) :
  (∀ l, l ≠ o → is_Some (h !! l) → h2 !! l = h !! l) →
  (∀ j v, j ≤ m → eval j h (Some o) ≠ Ok v) →
  eval m h p = Ok w → eval m h2 p = Ok w.
Proof.
  intros Hagree. revert p w. induction m as [|m IH]; intros p w Hmin He.
  { discriminate. }
  assert (Hmin' : ∀ j v, j ≤ m → eval j h (Some o) ≠ Ok v)
    by (intros j v Hj; apply Hmin; lia).
  pose proof He as He'. simpl in He. inv_bind He.
  apply deref_Ok in Hx as (l & -> & Hl).
  destruct (decide (l = o)) as [->|Hne].
  { by destruct (Hmin (S m) w). }
  simpl. rewrite (Hagree l Hne) by eauto. rewrite Hl. simpl.
  destruct x as [T val|T A B fn name pl pr|T c pt pf].
  - done.
  - inv_bind He. inv_bind He.
    rewrite (IH _ _ Hmin' Hx). simpl. rewrite (IH _ _ Hmin' Hx0). simpl. done.
  - destruct (ptr_to_bool c); by apply IH.
Qed.

Lemma eval_min_fuel (fuel : nat) (h : heap) (p : ptr) (v : value) :
  eval fuel h p = Ok v →
  ∃ k, eval k h p = Ok v ∧ ∀ j v', j < k → eval j h p ≠ Ok v'.
Proof.
  revert v. induction fuel as [|n IH]; intros v He; [discriminate|].
  destruct (eval n h p) as [v'|f] eqn:Hn.
  - destruct (IH v' eq_refl) as (k & Hk & Hmin). exists k. split; [|done].
    by rewrite (eval_deterministic _ _ _ _ _ _ He Hn).
  - exists (S n). split; [done|]. intros j v' Hj Hjv.
    rewrite (eval_mono j n h p v' Hjv) in Hn by lia. discriminate.
Qed.

(** The operands of a binary operator that evaluates evaluate as well in any
    store that differs only at the operator itself and at addresses that
    were free. *)
Lemma eval_operands_elsewhere (h h2 : heap) (o : loc) (T A B : ty)
    (fn : tyD A → tyD B → tyD T) (name : string) (pl pr : ptr) (v : value) :
  h !! o = Some (bin_op_expr T A B fn name pl pr) →
  evaluates h (Some o) v →
  (∀ l, l ≠ o → is_Some (h !! l) → h2 !! l = h !! l) →
  ∃ a b, evaluates h2 pl (Dyn A a) ∧ evaluates h2 pr (Dyn B b) ∧
         v = Dyn T (fn a b).
Proof.
  intros Ho [fuel He] Hagree.
  apply eval_min_fuel in He as (k & Hk & Hmin).
  destruct k as [|k]; [discriminate|].
  rewrite (eval_bin_op_expr _ _ _ _ _ _ _ _ _ _ Ho) in Hk.
  inv_bind Hk. inv_bind Hk.
  apply apply_fn_Ok in Hk as (a & b & -> & -> & ->).
  assert (Hmin' : ∀ j v, j ≤ k → eval j h (Some o) ≠ Ok v)
    by (intros j v Hj; apply Hmin; lia).
  exists a, b. split; [|split; [|done]]; exists k;
    by eapply eval_change_unvisited.
Qed.

Lemma deref_lookup (h : heap) (l : loc) (n : node) :
  h !! l = Some n → deref h (Some l) = Ok n.
Proof. intros Hl. unfold deref. by rewrite Hl. Qed.

Lemma store_insert (h : heap) (l : loc) (n0 n : node) :
  h !! l = Some n0 → store h l n = Ok (<[l := n]> h).
Proof. intros Hl. unfold store. by rewrite Hl. Qed.

(** ** The binary operator's move operations *)

(** X16.  Move construction of a binary operator always completes and
    transfers the operands: the new node, at a fresh address, holds the
    function, name and operands of the source and evaluates to whatever the
    source evaluated to; the source is left with two null operands, so
    evaluating it dereferences null and destroying it frees the source node
    and nothing else. *)
Theorem bin_op_expr_move_ctor_transfers (mv : moved_state) (h : heap) (o : loc)
    (T A B : ty) (fn : tyD A → tyD B → tyD T) (name : string) (pl pr : ptr) :
  h !! o = Some (bin_op_expr T A B fn name pl pr) →
  ∃ h' this,
    bin_op_expr_move_ctor mv h o = Ok (h', this) ∧
    h !! this = None ∧
    h' !! this = Some (bin_op_expr T A B fn name pl pr) ∧
    (∃ fn' name', h' !! o = Some (bin_op_expr T A B fn' name' None None)) ∧
    (∀ v, evaluates h (Some o) v → evaluates h' (Some this) v) ∧
    (∀ fuel, eval (S (S fuel)) h' (Some o) = Fault NullDeref) ∧
    (∀ fuel, delete_expr (S (S fuel)) h' (Some o) = Ok (delete o h')).
Proof.
  intros Ho.
  assert (h !! fresh (dom h) = None) as Hfresh by apply not_elem_of_dom, is_fresh.
  assert (fresh (dom h) ≠ o) as Hne by congruence.
  set (nd := bin_op_expr T A B fn name pl pr) in *.
  set (moved := bin_op_expr T A B (moved_fn mv T A B fn) (moved_name mv name)
                  None None).
  set (h' := <[o := moved]> (<[fresh (dom h) := nd]> h)).
  assert (Hthis : h' !! fresh (dom h) = Some nd).
  { unfold h'. by rewrite lookup_insert_ne, lookup_insert_eq. }
  assert (Hsrc : h' !! o = Some moved) by apply lookup_insert_eq.
  exists h', (fresh (dom h)). split; [|split; [done|split; [done|split]]].
  - unfold bin_op_expr_move_ctor. rewrite (deref_lookup _ _ _ Ho). simpl.
    unfold alloc, store. rewrite lookup_insert_ne by done. by rewrite Ho.
  - by exists (moved_fn mv T A B fn), (moved_name mv name).
  - split; [|split].
    + intros v Hv.
      destruct (eval_operands_elsewhere h h' o T A B fn name pl pr v Ho Hv)
        as (a & b & Ha & Hb & ->).
      { intros l Hlo [n Hl]. unfold h'.
        rewrite lookup_insert_ne by done.
        rewrite lookup_insert_ne by congruence. done. }
      apply (evaluates_bin_op_expr _ _ _ _ _ _ _ _ _ _ Hthis). eauto.
    + intros fuel. simpl. by rewrite Hsrc.
    + intros fuel. simpl. rewrite Hsrc. simpl. unfold free. by rewrite Hsrc.
Qed.

Lemma bin_op_expr_move_ctor_transfers_witness :
  ∃ h' this,
    bin_op_expr_move_ctor MoreSamples.mv_empty Samples.h_sum 3%positive
    = Ok (h', this) ∧
    Samples.h_sum !! this = None ∧
    h' !! this = Some (bin_op_expr TInt TInt TInt Driver.plus "+"
                         (Some 1%positive) (Some 2%positive)) ∧
    (∃ fn' name', h' !! 3%positive
                  = Some (bin_op_expr TInt TInt TInt fn' name' None None)) ∧
    (∀ v, evaluates Samples.h_sum (Some 3%positive) v → evaluates h' (Some this) v) ∧
    (∀ fuel, eval (S (S fuel)) h' (Some 3%positive) = Fault NullDeref) ∧
    (∀ fuel, delete_expr (S (S fuel)) h' (Some 3%positive)
             = Ok (delete 3%positive h')).
Proof.
  apply (bin_op_expr_move_ctor_transfers MoreSamples.mv_empty Samples.h_sum
           3%positive TInt TInt TInt Driver.plus "+"
           (Some 1%positive) (Some 2%positive)).
  reflexivity.
Defined.

(** ** The binary operator's copies *)

Lemma bin_op_expr_copy_ctor_clone (fuel : nat) (h : heap) (o : loc) (T A B : ty)
    (fn : tyD A → tyD B → tyD T) (name : string) (pl pr : ptr) :
  h !! o = Some (bin_op_expr T A B fn name pl pr) →
  bin_op_expr_copy_ctor fuel h o = clone (S fuel) h (Some o).
Proof.
  intros Ho. unfold bin_op_expr_copy_ctor. rewrite (deref_lookup _ _ _ Ho).
  simpl. by rewrite Ho.
Qed.

(** X17.  Copy construction of a binary operator that evaluates completes,
    changes no existing node, and gives a node at a fresh address that
    evaluates to the same value.  When the source is a tree of constants and
    binary operators the copy shares nothing with it: deleting the copy
    gives back exactly the store there was before. *)
Theorem bin_op_expr_copy_ctor_deep (h : heap) (o : loc) (T A B : ty)
    (fn : tyD A → tyD B → tyD T) (name : string) (pl pr : ptr) (v : value) :
  h !! o = Some (bin_op_expr T A B fn name pl pr) →
  evaluates h (Some o) v →
  ∃ fuel h' l',
    bin_op_expr_copy_ctor fuel h o = Ok (h', l') ∧
    h ⊆ h' ∧ h !! l' = None ∧
    evaluates h' (Some l') v ∧
    (plain h (Some o) → delete_expr (S fuel) h' (Some l') = Ok h).
Proof.
  intros Ho [[|k] He]; [discriminate|].
  destruct (clone_total_eval _ _ _ _ He) as (h' & l' & Hc).
  exists k, h', l'.
  rewrite (bin_op_expr_copy_ctor_clone _ _ _ _ _ _ _ _ _ _ Ho).
  split; [done|]. split; [by eapply clone_subseteq|].
  split; [by eapply clone_fresh|]. split.
  - exists (S k). by eapply clone_eval.
  - intros Hp. by eapply clone_then_delete.
Qed.

Lemma bin_op_expr_copy_ctor_deep_witness :
  ∃ fuel h' l',
    bin_op_expr_copy_ctor fuel Samples.h_sum 3%positive = Ok (h', l') ∧
    Samples.h_sum ⊆ h' ∧ Samples.h_sum !! l' = None ∧
    evaluates h' (Some l') (Dyn TInt 5%Z) ∧
    (plain Samples.h_sum (Some 3%positive) →
     delete_expr (S fuel) h' (Some l') = Ok Samples.h_sum).
Proof.
  apply (bin_op_expr_copy_ctor_deep Samples.h_sum 3%positive TInt TInt TInt
           Driver.plus "+" (Some 1%positive) (Some 2%positive) (Dyn TInt 5%Z)).
  - reflexivity.
  - exists 2. reflexivity.
Defined.

(** ** Assignment between binary operators *)

(** A binary operator that owns its store splits it into its own node and
    the stores of its two operands. *)
Lemma owned_bin_op_split (n : nat) (ha : heap) (this : loc) (T A B : ty)
    (fn : tyD A → tyD B → tyD T) (name : string) (pl pr : ptr) :
  ha !! this = Some (bin_op_expr T A B fn name pl pr) →
  delete_expr (S n) ha (Some this) = Ok ∅ →
  ∃ hl hr,
    ha = hr ∪ (hl ∪ {[this := bin_op_expr T A B fn name pl pr]}) ∧
    hr ##ₘ hl ∧ hl !! this = None ∧ hr !! this = None ∧
    delete_expr n hl pl = Ok ∅ ∧ delete_expr n hr pr = Ok ∅.
Proof.
  intros Hthis Hd. simpl in Hd. rewrite Hthis in Hd.
  inv_bind Hd. inv_bind Hd.
  pose proof (delete_expr_subseteq _ _ _ _ Hx) as Hs1.
  pose proof (delete_expr_subseteq _ _ _ _ Hx0) as Hs2.
  apply delete_expr_footprint in Hx as (hr & -> & Hdr & Hdel_r).
  apply delete_expr_footprint in Hx0 as (hl & -> & Hdl & Hdel_l).
  unfold free in Hd. destruct (x0 !! this) as [nd|] eqn:Hl0; [|discriminate].
  apply Ok_inj in Hd.
  assert (nd = bin_op_expr T A B fn name pl pr) as ->.
  { apply (inj Some). rewrite <- Hthis. symmetry.
    eapply lookup_weaken; [exact Hl0|]. by etrans. }
  assert (x0 = {[this := bin_op_expr T A B fn name pl pr]}) as ->.
  { clear Hthis Hs1 Hs2 Hdr Hdl Hdel_r Hdel_l. apply map_eq. intros i.
    apply (f_equal (.!! i)) in Hd. revert Hd.
    rewrite lookup_delete, lookup_empty, lookup_singleton.
    case_decide; subst; [by rewrite Hl0|done]. }
  exists hl, hr.
  assert (hl !! this = None) as Hnl.
  { eapply map_disjoint_Some_r; [exact Hdl|]. apply lookup_singleton_eq. }
  assert (hr !! this = None) as Hnr.
  { eapply map_disjoint_Some_r; [exact Hdr|].
    rewrite (lookup_union_r _ _ _ Hnl). apply lookup_singleton_eq. }
  split; [done|]. split; [|done].
  clear Hthis Hs1 Hs2 Hdel_r Hdel_l Hl0 Hd Hnl Hnr. heap_solve.
Qed.

(** X18.  Move assignment between two distinct binary operators, when the
    target owns its tree: the assignment completes, the old operands of the
    target are deleted, the target takes the function, name and operands of
    the source and evaluates to what the source evaluated to, and the source
    is left with two null operands.  Nothing else in the store changes. *)
Theorem bin_op_expr_move_assign_transfers (mv : moved_state) (fuel : nat)
    (ha g : heap) (this o : loc) (T A B : ty)
    (fn o_fn : tyD A → tyD B → tyD T) (name o_name : string)
    (pl pr o_left o_right : ptr) :
  ha ##ₘ g →
  ha !! this = Some (bin_op_expr T A B fn name pl pr) →
  delete_expr fuel ha (Some this) = Ok ∅ →
  g !! o = Some (bin_op_expr T A B o_fn o_name o_left o_right) →
  let moved := bin_op_expr T A B (moved_fn mv T A B o_fn) (moved_name mv o_name)
                 None None in
  let h' := <[this := bin_op_expr T A B o_fn o_name o_left o_right]>
            (<[o := moved]> g) in
  bin_op_expr_move_assign mv fuel (ha ∪ g) this o = Ok h' ∧
  ∀ v, evaluates g (Some o) v → evaluates h' (Some this) v.
Proof.
  intros Hdisj Hthis Hown Ho moved h'.
  assert (ha !! o = None) as Hao by (by eapply map_disjoint_Some_r).
  assert (g !! this = None) as Hgt by (by eapply map_disjoint_Some_l).
  assert (o ≠ this) as Hne by congruence.
  split.
  - destruct fuel as [|n]; [discriminate|].
    destruct (owned_bin_op_split _ _ _ _ _ _ _ _ _ _ Hthis Hown)
      as (hl & hr & -> & Hlr & Hnl & Hnr & Hdel_l & Hdel_r).
    apply (delete_expr_mono _ (S n)) in Hdel_l, Hdel_r; [|lia..].
    clear Hthis Hown. remember (S n) as k eqn:Hk. clear n Hk.
    assert (hl !! o = None ∧ hr !! o = None) as [Hlo Hro].
    { apply lookup_union_None in Hao as [? Hao].
      by apply lookup_union_None in Hao as [? _]. }
    set (nd := bin_op_expr T A B fn name pl pr) in *.
    set (new := bin_op_expr T A B o_fn o_name o_left o_right) in *.
    set (moved1 := bin_op_expr T A B (moved_fn mv T A B o_fn)
                     (moved_name mv o_name) None o_right).
    set (new1 := bin_op_expr T A B o_fn o_name o_left pr).
    unfold bin_op_expr_move_assign.
    rewrite (deref_lookup _ this nd); last first.
    { apply lookup_union_Some_l. rewrite (lookup_union_r _ _ _ Hnr).
      rewrite (lookup_union_r _ _ _ Hnl). apply lookup_singleton_eq. }
    rewrite (deref_lookup _ o _ (eq_trans (lookup_union_r _ _ _ Hao) Ho)).
    simpl.
    rewrite decide_True by done. rewrite decide_False by done.
    fold moved1 new1.
    rewrite (store_insert _ o new)
      by (rewrite (lookup_union_r _ _ _ Hao); exact Ho).
    simpl.
    rewrite (store_insert _ this nd); last first.
    { rewrite lookup_insert_ne by done. apply lookup_union_Some_l.
      rewrite (lookup_union_r _ _ _ Hnr), (lookup_union_r _ _ _ Hnl).
      apply lookup_singleton_eq. }
    simpl.
    assert (<[this := new1]> (<[o := moved1]> (hr ∪ (hl ∪ {[this := nd]}) ∪ g))
            = hl ∪ (hr ∪ <[this := new1]> (<[o := moved1]> g))) as ->.
    { clear Hdel_l Hdel_r Ho. heap_solve. }
    rewrite (delete_expr_frame _ _ _ _ _ Hdel_l)
      by (clear Hdel_l Hdel_r Ho; heap_solve).
    simpl. rewrite (left_id_L ∅ (∪)).
    assert (Ho1 : (hr ∪ <[this := new1]> (<[o := moved1]> g)) !! o = Some moved1).
    { rewrite (lookup_union_r _ _ _ Hro), lookup_insert_ne by done.
      apply lookup_insert_eq. }
    rewrite Ho1. simpl. fold moved new.
    rewrite (store_insert _ o moved1) by done. simpl.
    rewrite (store_insert _ this new1); last first.
    { rewrite lookup_insert_ne by done. rewrite (lookup_union_r _ _ _ Hnr).
      apply lookup_insert_eq. }
    simpl.
    assert (<[this := new]> (<[o := moved]> (hr ∪ <[this := new1]> (<[o := moved1]> g)))
            = hr ∪ h') as ->.
    { unfold h'. clear Hdel_l Hdel_r Ho Ho1. heap_solve. }
    rewrite (delete_expr_frame _ _ _ _ _ Hdel_r)
      by (unfold h'; clear Hdel_l Hdel_r Ho Ho1; heap_solve).
    simpl. by rewrite (left_id_L ∅ (∪)).
  - intros v Hv.
    destruct (eval_operands_elsewhere g h' o T A B o_fn o_name o_left o_right v
                Ho Hv) as (a & b & Ha & Hb & ->).
    { intros l Hlo [n Hl]. unfold h'.
      rewrite lookup_insert_ne by congruence.
      by rewrite lookup_insert_ne by done. }
    apply (evaluates_bin_op_expr h' this T A B o_fn o_name o_left o_right).
    + apply lookup_insert_eq.
    + eauto.
Qed.

Lemma bin_op_expr_move_assign_transfers_witness :
  let moved := bin_op_expr TInt TInt TInt
                 (moved_fn MoreSamples.mv_empty TInt TInt TInt Driver.plus)
                 (moved_name MoreSamples.mv_empty "+") None None in
  let h' := <[13%positive := bin_op_expr TInt TInt TInt Driver.plus "+"
                               (Some 1%positive) (Some 2%positive)]>
            (<[3%positive := moved]> Samples.h_sum) in
  bin_op_expr_move_assign MoreSamples.mv_empty 2
    (MoreSamples.h_target ∪ Samples.h_sum) 13%positive 3%positive = Ok h' ∧
  ∀ v, evaluates Samples.h_sum (Some 3%positive) v → evaluates h' (Some 13%positive) v.
Proof.
  apply (bin_op_expr_move_assign_transfers MoreSamples.mv_empty 2
           MoreSamples.h_target Samples.h_sum 13%positive 3%positive
           TInt TInt TInt MoreSamples.times Driver.plus "*" "+"
           (Some 11%positive) (Some 12%positive)
           (Some 1%positive) (Some 2%positive)).
  - repeat (apply map_disjoint_insert_l_2; [reflexivity|]).
    apply map_disjoint_empty_l.
  - reflexivity.
  - reflexivity.
  - reflexivity.
Defined.

(** X19.  Copy assignment between two distinct binary operators, when the
    target owns its tree and the source is a tree of constants and binary
    operators that evaluates: the assignment completes and changes nothing
    outside the target's tree, so the source is as it was; the target then
    evaluates to the value of the source; and the target owns fresh copies
    of the source's operands, deleting it leaves exactly the rest of the
    store, source included. *)
Theorem bin_op_expr_copy_assign_deep (n : nat) (ha g : heap) (this o : loc)
    (T A B : ty) (fn o_fn : tyD A → tyD B → tyD T) (name o_name : string)
    (pl pr o_left o_right : ptr) (v : value) :
  ha ##ₘ g →
  ha !! this = Some (bin_op_expr T A B fn name pl pr) →
  delete_expr n ha (Some this) = Ok ∅ →
  g !! o = Some (bin_op_expr T A B o_fn o_name o_left o_right) →
  evaluates g (Some o) v →
  plain g (Some o) →
  ∃ fuel h',
    bin_op_expr_copy_assign fuel (ha ∪ g) this o = Ok h' ∧
    g ⊆ h' ∧
    evaluates h' (Some this) v ∧
    delete_expr (S fuel) h' (Some this) = Ok g.
Proof.
  intros Hdisj Hthis Hown Ho Hv Hplain.
  assert (ha !! o = None) as Hao by (by eapply map_disjoint_Some_r).
  assert (g !! this = None) as Hgt by (by eapply map_disjoint_Some_l).
  assert (o ≠ this) as Hne by congruence.
  destruct (plain_bin_op_inv _ _ _ _ _ _ _ _ _ Ho Hplain) as [Hpl Hpr].
  destruct Hv as [[|k] He]; [discriminate|].
  rewrite (eval_bin_op_expr _ _ _ _ _ _ _ _ _ _ Ho) in He.
  inv_bind He. inv_bind He.
  apply apply_fn_Ok in He as (a & b & -> & -> & ->).
  destruct n as [|n]; [discriminate|].
  destruct (owned_bin_op_split _ _ _ _ _ _ _ _ _ _ Hthis Hown)
    as (hl & hr & -> & Hlr & Hnl & Hnr & Hdel_l & Hdel_r).
  set (F := k `max` n).
  apply (delete_expr_mono _ F) in Hdel_l, Hdel_r; [|lia..].
  clear Hthis Hown Hplain.
  assert (hl !! o = None ∧ hr !! o = None) as [Hlo Hro].
  { apply lookup_union_None in Hao as [? Hao].
    by apply lookup_union_None in Hao as [? _]. }
  set (nd := bin_op_expr T A B fn name pl pr) in *.
  set (src := bin_op_expr T A B o_fn o_name o_left o_right) in *.
  set (new0 := bin_op_expr T A B o_fn o_name pl pr).
  (* the store after [fn = o.fn; name = o.name] *)
  set (R1 := hr ∪ <[this := new0]> g).
  assert (E1 : <[this := new0]> (hr ∪ (hl ∪ {[this := nd]}) ∪ g) = hl ∪ R1).
  { unfold R1 in *. clear Hdel_l Hdel_r Ho Hx Hx0 Hpl Hpr. heap_solve. }
  assert (g ⊆ hl ∪ R1) as Hg1.
  { unfold R1 in *. clear Hdel_l Hdel_r Ho Hx Hx0 Hpl Hpr E1. heap_solve. }
  (* the clone of the left operand *)
  destruct (clone_total_eval _ _ _ _ (eval_weaken _ _ _ _ _ Hg1 Hx))
    as (H2 & l1 & Hc1).
  apply (clone_mono _ F) in Hc1; [|lia].
  destruct (clone_owned _ _ _ _ _ Hc1 (plain_weaken _ _ _ Hg1 Hpl))
    as (cl & -> & Hcl & Hdel_cl & Hev_cl).
  pose proof (Hev_cl _ _ (eval_weaken _ _ _ _ _ Hg1 Hx)) as Hl1.
  set (new1 := bin_op_expr T A B o_fn o_name (Some l1) pr).
  set (R3 := cl ∪ (hr ∪ <[this := new1]> g)).
  assert (Hclt : cl !! this = None).
  { eapply map_disjoint_Some_r; [exact Hcl|]. unfold R1.
    rewrite !lookup_union, Hnl, Hnr, lookup_insert_eq. reflexivity. }
  assert (E3 : <[this := new1]> (cl ∪ (hl ∪ R1)) = hl ∪ R3).
  { unfold R1, R3 in *.
    clear Hdel_l Hdel_r Ho Hx Hx0 Hpl Hpr E1 Hg1 Hc1 Hdel_cl Hev_cl Hl1.
    heap_solve. }
  assert (hl ##ₘ R3) as Hd3.
  { unfold R1, R3 in *.
    clear Hdel_l Hdel_r Ho Hx Hx0 Hpl Hpr E1 E3 Hg1 Hc1 Hdel_cl Hev_cl Hl1.
    heap_solve. }
  assert (g ⊆ R3) as Hg3.
  { unfold R1, R3 in *.
    clear Hdel_l Hdel_r Ho Hx Hx0 Hpl Hpr E1 E3 Hg1 Hc1 Hdel_cl Hev_cl Hl1 Hd3.
    heap_solve. }
  (* the clone of the right operand *)
  destruct (clone_total_eval _ _ _ _ (eval_weaken _ _ _ _ _ Hg3 Hx0))
    as (H4 & r1 & Hc2).
  apply (clone_mono _ F) in Hc2; [|lia].
  destruct (clone_owned _ _ _ _ _ Hc2 (plain_weaken _ _ _ Hg3 Hpr))
    as (cr & -> & Hcr & Hdel_cr & Hev_cr).
  pose proof (Hev_cr _ _ (eval_weaken _ _ _ _ _ Hg3 Hx0)) as Hr1.
  assert (Hcrt : cr !! this = None).
  { eapply map_disjoint_Some_r; [exact Hcr|]. unfold R3.
    rewrite !lookup_union, Hclt, Hnr, lookup_insert_eq. reflexivity. }
  set (new2 := bin_op_expr T A B o_fn o_name (Some l1) (Some r1)).
  set (h' := cr ∪ (cl ∪ <[this := new2]> g)).
  assert (E5 : <[this := new2]> (cr ∪ R3) = hr ∪ h').
  { unfold R1, R3, h' in *.
    clear Hdel_l Hdel_r Ho Hx Hx0 Hpl Hpr E1 E3 Hg1 Hc1 Hdel_cl Hev_cl Hl1
      Hg3 Hc2 Hdel_cr Hev_cr Hr1 Hd3.
    heap_solve. }
  assert (hr ##ₘ h') as Hd5.
  { unfold R1, R3, h' in *.
    clear Hdel_l Hdel_r Ho Hx Hx0 Hpl Hpr E1 E3 E5 Hg1 Hc1 Hdel_cl Hev_cl Hl1
      Hg3 Hc2 Hdel_cr Hev_cr Hr1 Hd3.
    heap_solve. }
  assert (Hthis' : h' !! this = Some new2).
  { unfold h'. rewrite !lookup_union, Hcrt, Hclt, lookup_insert_eq. reflexivity. }
  assert (cl ⊆ h' ∧ cr ⊆ h' ∧ g ⊆ h' ∧
          cr ##ₘ cl ∪ <[this := new2]> g ∧ cl ##ₘ <[this := new2]> g)
    as (Hscl & Hscr & Hsg & Hdcr & Hdcl).
  { unfold R1, R3, h' in *.
    clear Hdel_l Hdel_r Ho Hx Hx0 Hpl Hpr E1 E3 E5 Hg1 Hc1 Hdel_cl Hev_cl Hl1
      Hg3 Hc2 Hdel_cr Hev_cr Hr1 Hd3 Hd5 Hthis'.
    split; [|split; [|split; [|split]]]; heap_solve. }
  exists F, h'. split; [|split; [done|split]].
  - unfold bin_op_expr_copy_assign. rewrite decide_False by done.
    rewrite (deref_lookup _ this nd); last first.
    { apply lookup_union_Some_l. rewrite (lookup_union_r _ _ _ Hnr).
      rewrite (lookup_union_r _ _ _ Hnl). apply lookup_singleton_eq. }
    rewrite (deref_lookup _ o _ (eq_trans (lookup_union_r _ _ _ Hao) Ho)).
    simpl. rewrite decide_True by done. fold new0.
    rewrite (store_insert _ this nd); last first.
    { apply lookup_union_Some_l. rewrite (lookup_union_r _ _ _ Hnr).
      rewrite (lookup_union_r _ _ _ Hnl). apply lookup_singleton_eq. }
    simpl. rewrite E1, Hc1. simpl. fold new1.
    rewrite (store_insert _ this new0); last first.
    { assert (cl !! this = None).
      { eapply map_disjoint_Some_r; [exact Hcl|]. rewrite <- E1.
        apply lookup_insert_eq. }
      rewrite lookup_union_r by done. rewrite <- E1. apply lookup_insert_eq. }
    simpl. rewrite E3.
    rewrite (delete_expr_frame _ _ _ _ _ Hdel_l Hd3). simpl.
    rewrite (left_id_L ∅ (∪)).
    assert (R3 !! o = Some src) as Ho3 by (by eapply lookup_weaken).
    rewrite Ho3. simpl. rewrite Hc2. simpl. fold new2.
    rewrite (store_insert _ this new1); last first.
    { assert (cr !! this = None).
      { eapply map_disjoint_Some_r; [exact Hcr|]. unfold R3.
        assert (cl !! this = None).
        { eapply map_disjoint_Some_r; [exact Hcl|]. rewrite <- E1.
          apply lookup_insert_eq. }
        rewrite lookup_union_r by done. rewrite lookup_union_r by done.
        apply lookup_insert_eq. }
      rewrite lookup_union_r by done. unfold R3.
      assert (cl !! this = None).
      { eapply map_disjoint_Some_r; [exact Hcl|]. rewrite <- E1.
        apply lookup_insert_eq. }
      rewrite lookup_union_r by done. rewrite lookup_union_r by done.
      apply lookup_insert_eq. }
    simpl. rewrite E5.
    rewrite (delete_expr_frame _ _ _ _ _ Hdel_r Hd5). simpl.
    by rewrite (left_id_L ∅ (∪)).
  - apply (evaluates_bin_op_expr _ _ _ _ _ _ _ _ _ _ Hthis').
    exists a, b. split; [|split; [|done]]; exists k.
    + exact (eval_weaken _ _ _ _ _ Hscl Hl1).
    + exact (eval_weaken _ _ _ _ _ Hscr Hr1).
  - simpl. rewrite Hthis'. simpl. unfold h'.
    rewrite (delete_expr_frame _ _ _ _ _ Hdel_cr Hdcr). simpl.
    rewrite (left_id_L ∅ (∪)).
    rewrite (delete_expr_frame _ _ _ _ _ Hdel_cl Hdcl). simpl.
    rewrite (left_id_L ∅ (∪)).
    by apply free_fresh_insert.
Qed.

Lemma bin_op_expr_copy_assign_deep_witness :
  ∃ fuel h',
    bin_op_expr_copy_assign fuel (MoreSamples.h_target ∪ Samples.h_sum)
      13%positive 3%positive = Ok h' ∧
    Samples.h_sum ⊆ h' ∧
    evaluates h' (Some 13%positive) (Dyn TInt 5%Z) ∧
    delete_expr (S fuel) h' (Some 13%positive) = Ok Samples.h_sum.
Proof.
  apply (bin_op_expr_copy_assign_deep 2 MoreSamples.h_target Samples.h_sum
           13%positive 3%positive TInt TInt TInt MoreSamples.times Driver.plus
           "*" "+" (Some 11%positive) (Some 12%positive)
           (Some 1%positive) (Some 2%positive) (Dyn TInt 5%Z)).
  - repeat (apply map_disjoint_insert_l_2; [reflexivity|]).
    apply map_disjoint_empty_l.
  - reflexivity.
  - reflexivity.
  - reflexivity.
  - exists 2. reflexivity.
  - apply (plain_bin_op Samples.h_sum 3%positive TInt TInt TInt Driver.plus "+"
             (Some 1%positive) (Some 2%positive)).
    + reflexivity.
    + apply (plain_const Samples.h_sum 1%positive TInt 2%Z). reflexivity.
    + apply (plain_const Samples.h_sum 2%positive TInt 3%Z). reflexivity.
Defined.

(** ** More on copies and moves of a conditional *)

(** X20.  Move construction of a conditional always completes: the new
    node, at a fresh address, holds the three pointers of the source and
    evaluates to whatever the source evaluated to, while the source keeps
    its condition pointer and has null branches, so both nodes point at the
    same condition. *)
Theorem if_expr_move_ctor_shares_cond (h : heap) (o : loc) (T : ty) (c t f : ptr) :
  h !! o = Some (if_expr T c t f) →
  ∃ h' this,
    if_expr_move_ctor h o = Ok (h', this) ∧
    h !! this = None ∧
    h' !! this = Some (if_expr T c t f) ∧
    h' !! o = Some (if_expr T c None None) ∧
    ∀ v, evaluates h (Some o) v → evaluates h' (Some this) v.
Proof.
  intros Ho.
  destruct (if_expr_move_ctor_spec _ _ _ _ _ _ Ho)
    as (h' & this & Hm & Hfresh & Hthis & Hsrc).
  exists h', this. do 4 (split; [done|]).
  intros v [fuel He].
  apply eval_min_fuel in He as (k & Hk & Hmin).
  destruct k as [|k]; [discriminate|].
  assert (Hmin' : ∀ j v, j ≤ k → eval j h (Some o) ≠ Ok v)
    by (intros j v' Hj; apply Hmin; lia).
  assert (Hagree : ∀ l, l ≠ o → is_Some (h !! l) → h' !! l = h !! l).
  { intros l Hlo [n Hl].
    unfold if_expr_move_ctor in Hm. rewrite (proj2 (load_if_Ok _ _ _ _ _ _) Ho) in Hm.
    simpl in Hm. unfold alloc, store in Hm.
    assert (fresh (dom h) ≠ o) as Hne.
    { intros <-. assert (h !! fresh (dom h) = None)
        by apply not_elem_of_dom, is_fresh. congruence. }
    rewrite lookup_insert_ne, Ho in Hm by done. simpl in Hm.
    injection Hm as <- <-.
    rewrite lookup_insert_ne by done.
    rewrite lookup_insert_ne by congruence. done. }
  simpl in Hk. rewrite Ho in Hk. simpl in Hk.
  exists (S k). simpl. rewrite Hthis. simpl.
  destruct (ptr_to_bool c); by eapply eval_change_unvisited.
Qed.

Lemma if_expr_move_ctor_shares_cond_witness :
  ∃ h' this,
    if_expr_move_ctor Samples.h_if 6%positive = Ok (h', this) ∧
    Samples.h_if !! this = None ∧
    h' !! this = Some (if_expr TString (Some 3%positive) (Some 4%positive)
                         (Some 5%positive)) ∧
    h' !! 6%positive = Some (if_expr TString (Some 3%positive) None None) ∧
    ∀ v, evaluates Samples.h_if (Some 6%positive) v → evaluates h' (Some this) v.
Proof.
  apply (if_expr_move_ctor_shares_cond Samples.h_if 6%positive TString
           (Some 3%positive) (Some 4%positive) (Some 5%positive)).
  reflexivity.
Defined.

(** X21.  Deleting the clone of a conditional deletes the original's
    subtrees: after [clone] and a completed [delete] of the clone, the
    condition node and both branch nodes that the original points at are
    gone from the store. *)
Theorem if_expr_clone_delete_removes_original_children (fuel fuel' : nat)
    (h h' h'' : heap) (l l' c t f : loc) (T : ty) :
  h !! l = Some (if_expr T (Some c) (Some t) (Some f)) →
  clone fuel h (Some l) = Ok (h', l') →
  delete_expr fuel' h' (Some l') = Ok h'' →
  h'' !! c = None ∧ h'' !! t = None ∧ h'' !! f = None.
Proof.
  intros Hl Hc Hd.
  destruct fuel as [|n]; [discriminate|].
  rewrite (clone_if_expr_shares _ _ _ _ _ _ _ Hl) in Hc.
  apply Ok_inj, alloc_inv in Hc as (_ & Hl' & _).
  destruct fuel' as [|m]; [discriminate|].
  simpl in Hd. rewrite Hl' in Hd.
  inv_bind Hd. inv_bind Hd. inv_bind Hd.
  pose proof (delete_expr_root_gone m h' x c Hx) as Hgc.
  pose proof (delete_expr_root_gone m x x0 t Hx0) as Hgt.
  pose proof (delete_expr_root_gone m x0 x1 f Hx1) as Hgf.
  apply delete_expr_subseteq in Hx0, Hx1. apply free_subseteq in Hd.
  assert (Hgone : ∀ (ha hb : heap) i, hb ⊆ ha → ha !! i = None → hb !! i = None).
  { intros ha hb i Hsub Hi. destruct (hb !! i) as [nd|] eqn:Hb; [|done].
    pose proof (lookup_weaken _ _ _ _ Hb Hsub). congruence. }
  split; [|split].
  - apply (Hgone x); [|done]. by do 2 (etrans; [eassumption|]).
  - apply (Hgone x0); [|done]. by etrans.
  - by apply (Hgone x1).
Qed.

Lemma if_expr_clone_delete_removes_original_children_witness :
  (<[6%positive := if_expr TString (Some 3%positive) (Some 4%positive)
                     (Some 5%positive)]> (∅ : heap)) !! 3%positive = None ∧
  (<[6%positive := if_expr TString (Some 3%positive) (Some 4%positive)
                     (Some 5%positive)]> (∅ : heap)) !! 4%positive = None ∧
  (<[6%positive := if_expr TString (Some 3%positive) (Some 4%positive)
                     (Some 5%positive)]> (∅ : heap)) !! 5%positive = None.
Proof.
  apply (if_expr_clone_delete_removes_original_children 1 3 Samples.h_if
           (<[7%positive := if_expr TString (Some 3%positive) (Some 4%positive)
                              (Some 5%positive)]> Samples.h_if)
           _ 6%positive 7%positive 3%positive 4%positive 5%positive TString).
  - reflexivity.
  - vm_compute. reflexivity.
  - vm_compute. reflexivity.
Defined.
